(** * proslenkey: the suggestion engine and the keyboard routing of the launcher

    A shallow embedding of [src/__main__.py]: the command index built from
    the search path, the subsequence matcher, the suggestion list with its
    show/hide policy, and the key, pointer and activation handlers of the
    [Launcher] class, followed by the properties the specification states
    about them.

    Python strings are sequences of Unicode code points: a character is a
    code point ([N]) and a string a list of them.  Integers that can be
    negative in the source (the [pos] of the matcher) are [Z]; key values
    and modifier masks are unsigned and are [N].

    The methods of [Launcher] run in a state and exception monad [M] over
    the record of what they read and write.  What belongs to GTK and GDK
    and is not fixed by the source is a parameter: the table of
    [Gdk.keyval_to_unicode], and the emissions of "changed" by an entry
    whose text is set. *)

From Stdlib Require Import ZArith NArith Lia.
From stdpp Require Import base decidable option list sorting gmap strings.

Local Open Scope Z_scope.

(** ** Strings *)

Abbreviation char := N (only parsing).
Abbreviation str := (list N) (only parsing).

(** A literal of the development, read as its code points (ASCII only). *)
Definition lit (s : string) : str :=
  List.map (fun a => N.of_nat (Ascii.nat_of_ascii a)) (String.list_ascii_of_string s).

(** Exceptions the modelled code can raise. *)
Inductive exn : Type :=
| ValueError        (* chr() of a value that is no code point *)
| OSError (errno : N).  (* a failed system call, e.g. EACCES = 13 *)

Definition EACCES : N := 13%N.
Definition ENAMETOOLONG : N := 36%N.

(** ** The parts of Python's standard library the launcher calls *)

Module Py.

(** [full.find(c, start)] for a needle of one character: the lowest index
    [i >= start] with [full[i] == c], and [-1] when there is none.  A
    negative [start] counts from the end and is clamped at [0], as slices
    are. *)
Fixpoint find_at (c : char) (l : str) (i : Z) : Z :=
  match l with
  | [] => -1
  | x :: l' => if N.eqb x c then i else find_at c l' (i + 1)
  end.

Definition find (full : str) (c : char) (start : Z) : Z :=
  let n := Z.of_nat (length full) in
  let s := if start <? 0 then Z.max 0 (start + n) else start in
  find_at c (drop (Z.to_nat s) full) s.

(** [chr(i)]: the character of code point [i]; [ValueError] above
    [0x10FFFF]. *)
Definition chr (i : N) : exn + str :=
  if (i <=? 0x10FFFF)%N then inr [i] else inl ValueError.

(** [str.isspace] on one character: the characters [str.strip()] removes. *)
Definition isspace (c : char) : bool :=
  ((9 <=? c) && (c <=? 13) || (28 <=? c) && (c <=? 32)
   || (c =? 0x85) || (c =? 0xA0) || (c =? 0x1680)
   || (0x2000 <=? c) && (c <=? 0x200A)
   || (c =? 0x2028) || (c =? 0x2029) || (c =? 0x202F) || (c =? 0x205F)
   || (c =? 0x3000))%N.

Fixpoint lstrip (s : str) : str :=
  match s with
  | c :: s' => if isspace c then lstrip s' else s
  | [] => []
  end.

Definition rstrip (s : str) : str := reverse (lstrip (reverse s)).

(** [s.strip()] *)
Definition strip (s : str) : str := rstrip (lstrip s).

(** [s[:-1]] *)
Definition drop_last (s : str) : str := take (length s - 1) s.

(** [s.split(sep)] for a separator of one character: never an empty list. *)
Fixpoint split (sep : char) (s : str) : list str :=
  match s with
  | [] => [[]]
  | c :: s' =>
      if N.eqb c sep then [] :: split sep s'
      else match split sep s' with
           | h :: t => (c :: h) :: t
           | [] => [[c]]
           end
  end.

(** The order of Python on strings: lexicographic on code points. *)
Fixpoint str_le (a b : str) : Prop :=
  match a, b with
  | [], _ => True
  | _ :: _, [] => False
  | x :: a', y :: b' => (x < y)%N \/ (x = y /\ str_le a' b')
  end.

End Py.

Module shlex.

(** The characters outside [[^\w@%+=:,./-]] with [re.ASCII]: letters,
    digits, underscore and [@%+=:,./-]. *)
Definition safe (c : char) : bool :=
  ((97 <=? c) && (c <=? 122) || (65 <=? c) && (c <=? 90)
   || (48 <=? c) && (c <=? 57) || (c =? 95)
   || existsb (N.eqb c) (lit "@%+=:,./-"))%N.

Definition apostrophe : char := 39%N.
Definition dquote : char := 34%N.

(** [s.replace(<'>, <'"'"'>)] *)
Definition escape (s : str) : str :=
  flat_map (fun c => if N.eqb c apostrophe
                     then [apostrophe; dquote; apostrophe; dquote; apostrophe]
                     else [c]) s.

(** [shlex.quote(s)] *)
Definition quote (s : str) : str :=
  match s with
  | [] => [apostrophe; apostrophe]
  | _ => if forallb safe s then s
         else [apostrophe] ++ escape s ++ [apostrophe]
  end.

End shlex.

(** ** The subsequence matcher *)

(** The [for c in sub] loop of [subseqmatch], with the loop variable [pos]. *)
Fixpoint subseq_loop (sub full : str) (pos : Z) : bool :=
  match sub with
  | [] => true
  | c :: sub' =>
      let pos' := Py.find full c (pos + 1) in
      if pos' =? -1 then false else subseq_loop sub' full pos'
  end.

Definition subseqmatch (sub full : str) : bool :=
  match sub with
  | [] => false                       (* if not sub: return False *)
  | _ => subseq_loop sub full (-1)
  end.

(** The characters of [q] occur in [c], in order, at the positions [ps],
    which increase strictly. *)
Definition occurs_at (ps : list nat) (q c : str) : Prop :=
  Forall2 (fun p ch => c !! p = Some ch) ps q /\ Sorted lt ps.

Definition in_order (q c : str) : Prop := exists ps, occurs_at ps q c.

(** ** The command index *)

(** What the launcher sees of the file system.  A directory entry [f] of
    [p.iterdir()] carries its [f.name] and the answers of [f.is_file()] and
    [os.access(f, os.X_OK)].  [Path.is_dir], [Path.iterdir] and
    [Path.is_file] are system calls that can fail: [is_dir] and [is_file]
    answer [False] for a path that does not exist and raise the [OSError]
    of any other failure (permission denied, name too long); [os.access]
    answers [False] when the call fails. *)
Record DirEntry : Type := {
  name : str;
  is_file : exn + bool;
  access_X_OK : bool
}.

Record Env : Type := {
  getenv_PATH : option str;             (* os.environ.get("PATH") *)
  is_dir : str -> exn + bool;            (* Path.is_dir *)
  iterdir : str -> exn + list DirEntry   (* Path.iterdir *)
}.

Definition pathsep : char := 58%N.       (* os.pathsep, a colon *)

(** [Path(p)]: the empty string denotes the current directory.  A [Path]
    object is never falsy, so the [not p] of the guard never holds. *)
Definition Path (p : str) : str :=
  match p with [] => lit "." | _ => p end.

(** The key of the sort, [(len(c), c)], compared as Python compares tuples. *)
Definition key_le (a b : str) : Prop :=
  (length a < length b)%nat \/ (length a = length b /\ Py.str_le a b).

#[global] Instance str_le_dec : RelDecision Py.str_le.
Proof.
  intros a. induction a as [|x a IH]; intros [|y b]; simpl.
  - left; exact I.
  - left; exact I.
  - right; intros [].
  - destruct (decide (x < y)%N) as [Hlt|Hnlt].
    + left; left; exact Hlt.
    + destruct (decide (x = y)) as [Heq|Hne].
      * destruct (IH b) as [Hle|Hnle].
        -- left; right; split; assumption.
        -- right; intros [?|[_ ?]]; contradiction.
      * right; intros [?|[? _]]; contradiction.
Defined.

#[global] Instance key_le_dec : RelDecision key_le.
Proof. intros a b. unfold key_le. apply _. Defined.

(** The inner loop: [for f in p.iterdir(): if ...: commands.add(f.name)].
    [f.is_file()] comes first in the [and]; what it raises is not caught. *)
Fixpoint add_entries (commands : gset str) (fs : list DirEntry)
  : exn + gset str :=
  match fs with
  | [] => inr commands
  | f :: fs' =>
      match is_file f with
      | inl e => inl e
      | inr b =>
          add_entries (if b && access_X_OK f then {[name f]} ∪ commands
                       else commands) fs'
      end
  end.

(** The outer loop over the directories of the search path.  Nothing is
    caught: what [p.is_dir()], [p.iterdir()] or the inner loop raises ends
    the loop and leaves the function. *)
Fixpoint scan_path (env : Env) (ps : list str) (commands : gset str)
  : exn + gset str :=
  match ps with
  | [] => inr commands
  | p :: ps' =>
      let p := Path p in
      match is_dir env p with
      | inl e => inl e
      | inr false => scan_path env ps' commands               (* continue *)
      | inr true =>
          match iterdir env p with
          | inl e => inl e
          | inr fs =>
              match add_entries commands fs with
              | inl e => inl e
              | inr commands' => scan_path env ps' commands'
              end
          end
      end
  end.

Definition search_path (env : Env) : list str :=
  Py.split pathsep (default [] (getenv_PATH env)).

Section Index.

(** The order in which Python iterates over a set is not specified. *)
Variable set_iter : gset str -> list str.

Definition get_path_commands (env : Env) : exn + list str :=
  match scan_path env (search_path env) ∅ with
  | inl e => inl e
  | inr commands => inr (merge_sort key_le (set_iter commands))
  end.

End Index.

(** An iteration order yields each member of the set once. *)
Definition enumerates (set_iter : gset str -> list str) : Prop :=
  forall s, set_iter s ≡ₚ elements s.

(** Two file systems with the same search path and the same contents: the
    entries of a directory can come in another order. *)
Definition same_listing (r1 r2 : exn + list DirEntry) : Prop :=
  match r1, r2 with
  | inl e1, inl e2 => e1 = e2
  | inr l1, inr l2 => l1 ≡ₚ l2
  | _, _ => False
  end.

Definition same_contents (env1 env2 : Env) : Prop :=
  getenv_PATH env1 = getenv_PATH env2 /\
  forall p, is_dir env1 p = is_dir env2 p /\
            same_listing (iterdir env1 p) (iterdir env2 p).

(** [p.is_dir()] answers [True]. *)
Definition is_directory (env : Env) (p : str) : bool :=
  match is_dir env p with inr true => true | _ => false end.

(** The directories of the search path that exist, as [Path] objects. *)
Definition path_dirs (env : Env) : list str :=
  List.filter (is_directory env) (Path <$> search_path env).

(** [x] is the name of an executable regular file in a directory of the
    search path that can be enumerated. *)
Definition on_path (env : Env) (x : str) : Prop :=
  exists p fs f,
    p ∈ path_dirs env /\ iterdir env p = inr fs /\ f ∈ fs /\
    is_file f = inr true /\ access_X_OK f = true /\ name f = x.

(** [f.is_file()] answers. *)
Definition entry_ok (f : DirEntry) : Prop := exists b, is_file f = inr b.

(** The turn of the outer loop for the path [p] passes: [p.is_dir()] answers
    [False], or it answers [True], the directory is enumerated and
    [is_file()] answers for each of its entries. *)
Definition dir_ok (env : Env) (p : str) : Prop :=
  is_dir env p = inr false \/
  (is_dir env p = inr true /\
   exists fs, iterdir env p = inr fs /\ Forall entry_ok fs).

(** The turn of the outer loop for the path [p] raises [e]: [p.is_dir()]
    does, or [p.iterdir()] does, or [is_file()] does for the first entry
    for which it does not answer. *)
Definition dir_raises (env : Env) (p : str) (e : exn) : Prop :=
  is_dir env p = inl e \/
  (is_dir env p = inr true /\
   (iterdir env p = inl e \/
    exists fs1 f fs2,
      iterdir env p = inr (fs1 ++ f :: fs2) /\
      Forall entry_ok fs1 /\ is_file f = inl e)).

(** The search path up to its first turn that raises, and the error. *)
Definition first_error (env : Env) (e : exn) : Prop :=
  exists ps1 p ps2,
    Path <$> search_path env = ps1 ++ p :: ps2 /\
    Forall (dir_ok env) ps1 /\ dir_raises env p e.

(** File systems of the scenarios: [/usr/bin] and [/bin] hold [lsblk],
    [cat] and [ls] (and a file that is not executable, and a subdirectory);
    [/nowhere] does not exist; [/root] exists and cannot be enumerated. *)
Definition executable (n : str) : DirEntry :=
  {| name := n; is_file := inr true; access_X_OK := true |}.

Definition scenario_listing (swap : bool) (p : str) : exn + list DirEntry :=
  if bool_decide (p = lit "/usr/bin") then
    inr (if swap
         then [executable (lit "cat"); executable (lit "lsblk");
               {| name := lit "README"; is_file := inr true; access_X_OK := false |}]
         else [executable (lit "lsblk");
               {| name := lit "README"; is_file := inr true; access_X_OK := false |};
               executable (lit "cat")])
  else if bool_decide (p = lit "/bin") then
    inr [executable (lit "ls"); executable (lit "cat");
         {| name := lit "X11"; is_file := inr false; access_X_OK := true |}]
  else inl (OSError EACCES).

Definition scenario_env (swap : bool) : Env :=
  {| getenv_PATH := Some (lit "/usr/bin:/nowhere:/bin");
     is_dir := fun p => inr (bool_decide (p = lit "/usr/bin")
                             || bool_decide (p = lit "/bin"));
     iterdir := scenario_listing swap |}.

Definition unreadable_env : Env :=
  {| getenv_PATH := Some (lit "/bin:/root");
     is_dir := fun p => inr (bool_decide (p = lit "/bin")
                             || bool_decide (p = lit "/root"));
     iterdir := scenario_listing false |}.

(** A search path where things go wrong: [/long] is a name for which
    [is_dir()] raises, and [/locked] a directory that can be listed but
    whose entry cannot be examined, so that [is_file()] raises. *)
Definition locked_env : Env :=
  {| getenv_PATH := Some (lit "/bin:/long:/locked");
     is_dir := fun p =>
       if bool_decide (p = lit "/long") then inl (OSError ENAMETOOLONG)
       else inr (bool_decide (p = lit "/bin") || bool_decide (p = lit "/locked"));
     iterdir := fun p =>
       if bool_decide (p = lit "/locked")
       then inr [{| name := lit "tool"; is_file := inl (OSError EACCES);
                    access_X_OK := false |}]
       else scenario_listing false p |}.

(** ** Words of the shell *)

Module sh.

(** How a POSIX shell reads one word: outside quotes a safe character
    stands for itself, an apostrophe opens a single-quoted part, where
    every character up to the next apostrophe stands for itself, and a
    double quote opens a double-quoted part, where every character but
    [$], the backquote and the backslash does, up to the next double
    quote.  [None] when the line is not one such word (a blank or an
    operator outside quotes ends a word; an open quote is an error). *)
Inductive Mode : Type := Bare | Single | Double.

Fixpoint word (m : Mode) (acc line : str) : option str :=
  match line with
  | [] => match m with Bare => Some acc | _ => None end
  | c :: rest =>
      match m with
      | Bare =>
          if N.eqb c shlex.apostrophe then word Single acc rest
          else if N.eqb c shlex.dquote then word Double acc rest
          else if shlex.safe c then word Bare (acc ++ [c]) rest
          else None
      | Single =>
          if N.eqb c shlex.apostrophe then word Bare acc rest
          else word Single (acc ++ [c]) rest
      | Double =>
          if N.eqb c shlex.dquote then word Bare acc rest
          else if existsb (N.eqb c) [36; 96; 92]%N then None
          else word Double (acc ++ [c]) rest
      end
  end.

(** The line is read as the single word [w]. *)
Definition single_token (line w : str) : Prop := word Bare [] line = Some w.

End sh.

(** ** The toolkit *)

Module Gdk.

(** Key values and modifier masks of GDK 4 (gdkkeysyms.h, gdkenums.h). *)
Definition KEY_space : N := 0x020%N.
Definition KEY_ISO_Left_Tab : N := 0xfe20%N.
Definition KEY_Tab : N := 0xff09%N.
Definition KEY_Return : N := 0xff0d%N.
Definition KEY_Escape : N := 0xff1b%N.
Definition KEY_KP_Tab : N := 0xff89%N.
Definition KEY_Shift_L : N := 0xffe1%N.
Definition KEY_Shift_R : N := 0xffe2%N.
Definition KEY_Control_L : N := 0xffe3%N.
Definition KEY_Control_R : N := 0xffe4%N.

Definition SHIFT_MASK : N := 1%N.
Definition LOCK_MASK : N := 2%N.
Definition CONTROL_MASK : N := 4%N.
Definition ALT_MASK : N := 8%N.

(** The Control modifier is part of a modifier state. *)
Definition control_held (state : N) : bool := N.testbit state 2.

(** [gdk_keyval_to_unicode] on the key values it maps without its table:
    Latin-1, the directly encoded code points, and the control characters
    GDK adds; [0] elsewhere.  An instance of the parameter
    [keyval_to_unicode] below. *)
Definition keyval_to_unicode_direct (keyval : N) : N :=
  (if (0x20 <=? keyval) && (keyval <=? 0x7e)
      || (0xa0 <=? keyval) && (keyval <=? 0xff) then keyval
   else if N.land keyval 0xff000000 =? 0x01000000 then N.land keyval 0x00ffffff
   else if keyval =? 0xff08 then 8          (* BackSpace *)
   else if keyval =? 0xff09 then 9          (* Tab *)
   else if keyval =? 0xff0d then 13         (* Return *)
   else if keyval =? 0xff1b then 27         (* Escape *)
   else 0)%N.

End Gdk.

(** ** The launcher *)

(** The widget that owns the keyboard: the entry, or the button at a
    position of the suggestion box. *)
Inductive Focus : Type :=
| OnEntry
| OnButton (i : nat).

(** A call [subprocess.Popen(args, shell=...)]: the child is not waited for. *)
Record Popen : Type := { args : str; shell : bool }.

(** The state of a [Launcher]: its attribute [commands], the properties of
    its widgets the handlers read or write, the processes it has started and
    whether [quit()] was called.  A button of the suggestion box is its
    label, which is also the [cmd] bound to its click gesture. *)
Record Launcher : Type := {
  commands : list str;
  entry_text : str;
  entry_hexpand : bool;
  scroller_visible : bool;
  suggestion_box : list str;
  focus : Focus;
  spawned : list Popen;
  quit_requested : bool
}.

Definition with_entry_text (t : str) (st : Launcher) : Launcher :=
  {| commands := commands st; entry_text := t;
     entry_hexpand := entry_hexpand st; scroller_visible := scroller_visible st;
     suggestion_box := suggestion_box st; focus := focus st;
     spawned := spawned st; quit_requested := quit_requested st |}.

Definition with_entry_hexpand (b : bool) (st : Launcher) : Launcher :=
  {| commands := commands st; entry_text := entry_text st;
     entry_hexpand := b; scroller_visible := scroller_visible st;
     suggestion_box := suggestion_box st; focus := focus st;
     spawned := spawned st; quit_requested := quit_requested st |}.

Definition with_scroller_visible (b : bool) (st : Launcher) : Launcher :=
  {| commands := commands st; entry_text := entry_text st;
     entry_hexpand := entry_hexpand st; scroller_visible := b;
     suggestion_box := suggestion_box st; focus := focus st;
     spawned := spawned st; quit_requested := quit_requested st |}.

Definition with_suggestion_box (l : list str) (st : Launcher) : Launcher :=
  {| commands := commands st; entry_text := entry_text st;
     entry_hexpand := entry_hexpand st; scroller_visible := scroller_visible st;
     suggestion_box := l; focus := focus st;
     spawned := spawned st; quit_requested := quit_requested st |}.

Definition with_focus (f : Focus) (st : Launcher) : Launcher :=
  {| commands := commands st; entry_text := entry_text st;
     entry_hexpand := entry_hexpand st; scroller_visible := scroller_visible st;
     suggestion_box := suggestion_box st; focus := f;
     spawned := spawned st; quit_requested := quit_requested st |}.

Definition with_spawned (l : list Popen) (st : Launcher) : Launcher :=
  {| commands := commands st; entry_text := entry_text st;
     entry_hexpand := entry_hexpand st; scroller_visible := scroller_visible st;
     suggestion_box := suggestion_box st; focus := focus st;
     spawned := l; quit_requested := quit_requested st |}.

Definition with_quit_requested (b : bool) (st : Launcher) : Launcher :=
  {| commands := commands st; entry_text := entry_text st;
     entry_hexpand := entry_hexpand st; scroller_visible := scroller_visible st;
     suggestion_box := suggestion_box st; focus := focus st;
     spawned := spawned st; quit_requested := b |}.

(** Methods run on the state of the launcher and return or raise. *)
Definition M (A : Type) : Type := Launcher -> (exn + A) * Launcher.

#[global] Instance M_ret : MRet M := fun A a st => (inr a, st).

#[global] Instance M_bind : MBind M := fun A B f m st =>
  match m st with
  | (inr a, st') => f a st'
  | (inl e, st') => (inl e, st')
  end.

Definition gets {A} (f : Launcher -> A) : M A := fun st => (inr (f st), st).
Definition modify (f : Launcher -> Launcher) : M unit := fun st => (inr (), f st).
Definition lift {A} (r : exn + A) : M A := fun st => (r, st).

(** [for x in xs: body(x)] *)
Fixpoint for_each {A} (xs : list A) (body : A -> M unit) : M unit :=
  match xs with
  | [] => mret ()
  | x :: xs' => body x ;; for_each xs' body
  end.

(** *** Suggestion handling *)

Definition show_suggestions : M unit :=
  modify (with_scroller_visible true) ;;
  modify (with_entry_hexpand false).

Definition hide_suggestions : M unit :=
  modify (with_scroller_visible false) ;;
  modify (with_entry_hexpand true).

(** [self.suggestion_box.remove(child)], [child] being the first child. *)
Definition remove_first_child : M unit :=
  modify (fun st => with_suggestion_box (tail (suggestion_box st)) st).

(** A new button labelled [cmd], with its controllers, appended to the box. *)
Definition append_button (cmd : str) : M unit :=
  modify (fun st => with_suggestion_box (suggestion_box st ++ [cmd]) st).

Definition refresh_suggestions (text : str) : M unit :=
  children ← gets suggestion_box;
  for_each children (fun _ => remove_first_child) ;;
  cmds ← gets commands;
  let matches := List.filter (subseqmatch text) cmds in
  match matches with
  | [] => hide_suggestions
  | _ => show_suggestions ;; for_each (take 20 matches) append_button
  end.

Definition on_entry_changed : M unit :=
  text ← gets entry_text;
  refresh_suggestions text.

(** *** Entry handling *)

Definition backspace : str := [8%N].   (* the string of the one character \b *)

(** *** Command execution *)

Definition popen (line : str) : M unit :=
  modify (fun st => with_spawned (spawned st ++ [{| args := line; shell := true |}]) st).

Definition quit : M unit := modify (with_quit_requested true).

Definition exec_one (cmd : str) : M unit := popen (shlex.quote cmd).

Definition on_activate_entry : M unit :=
  text ← gets entry_text;
  let cmdline := Py.strip text in
  match cmdline with
  | [] => mret ()
  | _ => popen cmdline ;; quit
  end.

(** The entry emits "activate". *)
Definition activate (st : Launcher) : Launcher := snd (on_activate_entry st).

(** The launcher after [__init__] and [build_ui]. *)
Definition build_ui (index : list str) : Launcher :=
  {| commands := index; entry_text := []; entry_hexpand := true;
     scroller_visible := false; suggestion_box := []; focus := OnEntry;
     spawned := []; quit_requested := false |}.

(** The events the main loop hands to the launcher: a key press, a pointer
    press on a button, an edit of the entry by the user (the toolkit stores
    the text and emits "changed"), the activation of the entry, and a move
    of the focus by the toolkit's own traversal. *)
Inductive Event : Type :=
| KeyPress (keyval state : N)
| PointerPress (i : nat) (state : N)
| Edit (text : str)
| Activate
| FocusMoved (f : Focus).

(** The focus is on a widget that exists. *)
Definition focus_exists (st : Launcher) : Prop :=
  match focus st with
  | OnEntry => True
  | OnButton i => is_Some (suggestion_box st !! i)
  end.

(** *** What the handlers need of the toolkit *)

(** While the toolkit replaces the text [old] of an entry by [new] it emits
    "changed" some number of times; [changed_at old new] lists the text the
    entry holds at each emission.  The toolkit emits at least once when the
    text changes, and its last emission comes with the new text in place. *)
Definition emits_changed (changed_at : str -> str -> list str) : Prop :=
  forall old new,
    (old <> new -> changed_at old new <> []) /\
    (forall t, last (changed_at old new) = Some t -> t = new).

Module Gtk.

(** An editable that replaces its text by deleting all of it and inserting
    the new one, with an emission for each step that changes something. *)
Definition delete_then_insert (old new : str) : list str :=
  (match old with [] => [] | _ => [[]] end)
  ++ (match new with [] => [] | _ => [new] end).

(** An editable that leaves a text equal to the new one alone and emits
    once otherwise. *)
Definition once_if_different (old new : str) : list str :=
  if decide (old = new) then [] else [new].

End Gtk.

Section Toolkit.

Variable changed_at : str -> str -> list str.

(** [Gdk.keyval_to_unicode]: the code point a key value stands for, [0]
    when it stands for none. *)
Variable keyval_to_unicode : N -> N.

(** [self.entry.set_text(text)]: each "changed" runs the connected
    [on_entry_changed]; the entry holds [text] in the end. *)
Definition set_text (text : str) : M unit :=
  old ← gets entry_text;
  for_each (changed_at old text)
           (fun t => modify (with_entry_text t) ;; on_entry_changed) ;;
  modify (with_entry_text text).

Definition append_char (char : str) : M unit :=
  text ← gets entry_text;
  set_text (if decide (char = backspace) then Py.drop_last text else text ++ char).

(** [grab_focus()]; [set_position(-1)] puts the caret, which the model does
    not hold, at the end. *)
Definition focus_entry : M unit := modify (with_focus OnEntry).

Definition set_cmd (cmd : str) : M unit := set_text (shlex.quote cmd).

(** *** Key handling *)

Definition on_key_pressed (keyval state : N) : M bool :=
  if N.eqb keyval Gdk.KEY_Escape then quit ;; mret true
  else mret false.

Definition passed_to_gtk : list N :=
  [Gdk.KEY_Tab; Gdk.KEY_KP_Tab; Gdk.KEY_ISO_Left_Tab; Gdk.KEY_Escape;
   Gdk.KEY_Return; Gdk.KEY_Shift_L; Gdk.KEY_Shift_R;
   Gdk.KEY_Control_L; Gdk.KEY_Control_R].

Definition on_scroller_key_pressed (keyval state : N) : M bool :=
  if existsb (N.eqb keyval) passed_to_gtk then mret false
  else
    let codepoint := keyval_to_unicode keyval in
    char ← (if N.eqb codepoint 0 then mret [] else lift (Py.chr codepoint));
    append_char char ;;
    focus_entry ;;
    mret true.

(** [widget_label] is [controller.get_widget().get_label()]. *)
Definition on_btn_key_pressed (widget_label : str) (keyval state : N) : M bool :=
  if N.eqb keyval Gdk.KEY_space then
    append_char (lit " ") ;; focus_entry ;; mret true
  else if N.eqb keyval Gdk.KEY_Return then
    let cmd := widget_label in
    if N.eqb state Gdk.CONTROL_MASK then
      set_cmd cmd ;; focus_entry ;; mret true
    else
      exec_one cmd ;; quit ;; mret true
  else mret false.

(** [state] is [gesture.get_current_event_state()]. *)
Definition on_btn_clicked (state : N) (cmd : str) : M unit :=
  if N.eqb state Gdk.CONTROL_MASK then
    set_cmd cmd ;; focus_entry
  else
    exec_one cmd ;; quit.

(** *** Delivery of events

    A key press goes to the widget that has the focus and bubbles up
    through the key controllers [build_ui] and [refresh_suggestions]
    attached: the button's, the scroller's, the root box's; the entry is
    a child of the root box only.  A handler that returns [True] stops
    it.  An exception leaving a handler is reported and the handler
    counts as having returned [False]. *)
Definition returned (r : (exn + bool) * Launcher) : bool * Launcher :=
  match r with
  | (inr b, st) => (b, st)
  | (inl _, st) => (false, st)
  end.

Fixpoint bubble (handlers : list (M bool)) (st : Launcher) : bool * Launcher :=
  match handlers with
  | [] => (false, st)
  | h :: hs =>
      let (stop, st') := returned (h st) in
      if stop then (true, st') else bubble hs st'
  end.

Definition key_controllers (st : Launcher) (keyval state : N) : list (M bool) :=
  match focus st with
  | OnEntry => [on_key_pressed keyval state]
  | OnButton i =>
      match suggestion_box st !! i with
      | Some label =>
          [on_btn_key_pressed label keyval state;
           on_scroller_key_pressed keyval state;
           on_key_pressed keyval state]
      | None => []
      end
  end.

(** The key press: whether a handler claimed it, and the state after. *)
Definition key_press (keyval state : N) (st : Launcher) : bool * Launcher :=
  bubble (key_controllers st keyval state) st.

(** A pointer press on the button at position [i]. *)
Definition pointer_press (i : nat) (state : N) (st : Launcher) : Launcher :=
  match suggestion_box st !! i with
  | Some cmd => snd (on_btn_clicked state cmd st)
  | None => st
  end.

(** One turn of the main loop, which ends once [quit()] was called. *)
Definition handle (st : Launcher) (ev : Event) : Launcher :=
  if quit_requested st then st
  else match ev with
       | KeyPress keyval state => snd (key_press keyval state st)
       | PointerPress i state => pointer_press i state st
       | Edit text => snd (set_text text st)
       | Activate => activate st
       | FocusMoved f => with_focus f st
       end.

Definition run (index : list str) (evs : list Event) : Launcher :=
  foldl handle (build_ui index) evs.

End Toolkit.

(** The launcher of the scenarios of the specification: the index of the
    executables [ls], [lsblk] and [cat], the text [ls] typed, and the focus
    moved to the button of [lsblk]. *)
Definition scenario_index : list str := [lit "ls"; lit "cat"; lit "lsblk"].

Definition scenario_lsblk_focused : Launcher :=
  {| commands := scenario_index; entry_text := lit "ls"; entry_hexpand := false;
     scroller_visible := true; suggestion_box := [lit "ls"; lit "lsblk"];
     focus := OnButton 1; spawned := []; quit_requested := false |}.

(** What [exec_one(cmd)] followed by [quit()] leaves. *)
Definition launched (line : str) (st : Launcher) : Launcher :=
  with_quit_requested true
    (with_spawned (spawned st ++ [{| args := line; shell := true |}]) st).

(** The list [refresh_suggestions] computes for a text. *)
Definition match_list (text : str) (index : list str) : list str :=
  take 20 (List.filter (subseqmatch text) index).

(** The suggestion box and its visibility agree with the text of the entry. *)
Definition consistent (st : Launcher) : Prop :=
  suggestion_box st = match_list (entry_text st) (commands st) /\
  (scroller_visible st = true <-> suggestion_box st <> []) /\
  entry_hexpand st = negb (scroller_visible st).

(** [sep.join(parts)] for a separator of one character. *)
Fixpoint join (sep : char) (parts : list str) : str :=
  match parts with
  | [] => []
  | [s] => s
  | s :: rest => s ++ sep :: join sep rest
  end.

(** The state [refresh_suggestions] builds, in closed form: the box and the
    two flags are rebuilt from the text and the index alone. *)
Definition refreshed (text : str) (st : Launcher) : Launcher :=
  let shown := match_list text (commands st) in
  {| commands := commands st; entry_text := entry_text st;
     entry_hexpand := match shown with [] => true | _ => false end;
     scroller_visible := match shown with [] => false | _ => true end;
     suggestion_box := shown; focus := focus st;
     spawned := spawned st; quit_requested := quit_requested st |}.

(** The launcher has started no process, or it has started one, through
    the shell, and has asked to quit. *)
Definition one_shot (st : Launcher) : Prop :=
  spawned st = [] \/
  (quit_requested st = true /\
   exists line, spawned st = [{| args := line; shell := true |}]).

(** What a handler may do to the index and to the processes: the index is
    kept, and either no process is started or one is, through the shell,
    and quit is requested with it. *)
Definition step_frame (st st' : Launcher) : Prop :=
  commands st' = commands st /\
  (spawned st' = spawned st \/
   (quit_requested st' = true /\
    exists line, spawned st' = spawned st ++ [{| args := line; shell := true |}])).

(** A handler of key presses either returns [False] (or raises) with the
    state as it was, or returns [True] within the frame. *)
Definition handler_ok (h : M bool) : Prop :=
  forall st,
    returned (h st) = (false, st) \/
    (fst (returned (h st)) = true /\ step_frame st (snd (returned (h st)))).

(** ** Tactics *)

(** Splits a conjunction into its parts. *)
Ltac conjs := repeat match goal with |- _ /\ _ => split end.

(** Unfolds the operations of the monad of methods. *)
Ltac run_M :=
  cbv [mbind M_bind mret M_ret gets modify lift
       show_suggestions hide_suggestions remove_first_child append_button
       focus_entry popen quit exec_one] in *.

(** ** Facts on [find] *)

Lemma find_at_none c l i :
  0 <= i -> Py.find_at c l i = -1 <-> c ∉ l.
Proof.
  revert i. induction l as [|x l IH]; intros i Hi; simpl.
  - split; [intros _; apply not_elem_of_nil | done].
  - destruct (N.eqb_spec x c) as [->|Hne].
    + split; [lia | intros H; exfalso; apply H; left].
    + rewrite IH by lia. rewrite not_elem_of_cons.
      split; [intros H; split; [congruence | done] | intros [_ H]; done].
Qed.

Lemma find_at_some c l i r :
  0 <= i -> Py.find_at c l i = r -> r <> -1 ->
  exists k : nat, r = i + Z.of_nat k /\ l !! k = Some c /\
                  forall j : nat, (j < k)%nat -> l !! j <> Some c.
Proof.
  revert i. induction l as [|x l IH]; intros i Hi Hr Hne; simpl in Hr.
  - congruence.
  - destruct (N.eqb_spec x c) as [->|Hxc].
    + exists 0%nat. split; [lia|]. split; [done|]. intros j Hj; lia.
    + destruct (IH (i + 1)) as (k & -> & Hk & Hmin); [lia|done|done|].
      exists (S k). split; [lia|]. split; [done|].
      intros [|j] Hj; simpl; [congruence|]. apply Hmin. lia.
Qed.

(** From a start inside the natural numbers, [find] returns the least
    position at or after it that holds the character. *)
Lemma find_spec_some full c (s : nat) r :
  Py.find full c (Z.of_nat s) = r -> r <> -1 ->
  exists p : nat, r = Z.of_nat p /\ (s <= p)%nat /\ full !! p = Some c /\
                  forall j : nat, (s <= j < p)%nat -> full !! j <> Some c.
Proof.
  unfold Py.find. intros Hr Hne.
  destruct (Z.ltb_spec (Z.of_nat s) 0) as [?|_]; [lia|].
  rewrite Nat2Z.id in Hr.
  destruct (find_at_some c (drop s full) (Z.of_nat s) r) as (k & -> & Hk & Hmin);
    [lia|done|done|].
  exists (s + k)%nat. rewrite lookup_drop in Hk.
  split; [lia|]. split; [lia|]. split; [done|].
  intros j Hj. replace j with (s + (j - s))%nat by lia.
  rewrite <- lookup_drop. apply Hmin. lia.
Qed.

Lemma find_spec_none full c (s : nat) :
  Py.find full c (Z.of_nat s) = -1 ->
  forall j : nat, (s <= j)%nat -> full !! j <> Some c.
Proof.
  unfold Py.find.
  destruct (Z.ltb_spec (Z.of_nat s) 0) as [?|_]; [lia|].
  rewrite Nat2Z.id. intros Hr j Hj Hc.
  apply find_at_none in Hr; [|lia]. apply Hr.
  apply list_elem_of_lookup. exists (j - s)%nat.
  rewrite lookup_drop. by replace (s + (j - s))%nat with j by lia.
Qed.

(** ** The loop of the matcher, by induction on the query *)

Lemma Sorted_lt_head_lt p ps q :
  Sorted lt (p :: ps) -> q ∈ ps -> (p < q)%nat.
Proof.
  intros HS Hq. apply Sorted_StronglySorted in HS; [|intros ???; lia].
  apply StronglySorted_inv in HS as [_ HF].
  rewrite List.Forall_forall in HF. apply HF. by apply list_elem_of_In.
Qed.

Lemma subseq_loop_sound sub full (s : nat) :
  subseq_loop sub full (Z.of_nat s - 1) = true ->
  exists ps, occurs_at ps sub full /\ Forall (fun p => (s <= p)%nat) ps.
Proof.
  revert s. induction sub as [|c sub IH]; intros s H.
  - exists []. repeat split; constructor.
  - simpl in H. replace (Z.of_nat s - 1 + 1) with (Z.of_nat s) in H by lia.
    destruct (Z.eqb_spec (Py.find full c (Z.of_nat s)) (-1)) as [|Hne]; [done|].
    destruct (find_spec_some _ _ _ _ eq_refl Hne) as (p & Hp & Hsp & Hc & _).
    rewrite Hp in H. replace (Z.of_nat p) with (Z.of_nat (S p) - 1) in H by lia.
    destruct (IH _ H) as (ps & [HF HS] & Hge).
    exists (p :: ps). split; [split|].
    + by constructor.
    + constructor; [done|]. destruct ps as [|p' ps]; constructor.
      apply Forall_cons in Hge as [? _]. lia.
    + constructor; [done|]. eapply Forall_impl; [exact Hge|]. simpl. lia.
Qed.

Lemma subseq_loop_complete sub full (s : nat) ps :
  occurs_at ps sub full -> Forall (fun p => (s <= p)%nat) ps ->
  subseq_loop sub full (Z.of_nat s - 1) = true.
Proof.
  revert s ps. induction sub as [|c sub IH]; intros s ps [HF HS] Hge; [done|].
  apply Forall2_cons_inv_r in HF as (p & ps' & Hc & HF & ->).
  apply Forall_cons in Hge as [Hsp Hge].
  simpl. replace (Z.of_nat s - 1 + 1) with (Z.of_nat s) by lia.
  destruct (Z.eqb_spec (Py.find full c (Z.of_nat s)) (-1)) as [Hn|Hne].
  - exfalso. by apply (find_spec_none _ _ _ Hn p).
  - destruct (find_spec_some _ _ _ _ eq_refl Hne) as (r & Hr & Hsr & _ & Hmin).
    rewrite Hr. replace (Z.of_nat r) with (Z.of_nat (S r) - 1) by lia.
    assert (r <= p)%nat as Hrp.
    { destruct (Nat.le_gt_cases r p) as [|Hlt]; [done|].
      exfalso. apply (Hmin p); [lia|done]. }
    apply (IH _ ps').
    + split; [done|]. by apply Sorted_inv in HS as [? _].
    + apply Forall_forall. intros q Hq.
      pose proof (Sorted_lt_head_lt _ _ _ HS Hq). lia.
Qed.

Lemma subseq_loop_in_order sub full :
  subseq_loop sub full (-1) = true <-> in_order sub full.
Proof.
  change (-1) with (Z.of_nat 0 - 1). split.
  - intros H. destruct (subseq_loop_sound _ _ _ H) as (ps & Hps & _). by exists ps.
  - intros [ps Hps]. apply (subseq_loop_complete _ _ _ ps); [done|].
    apply Forall_forall. intros; lia.
Qed.

(** C1.  [subseqmatch q c] is true exactly when [q] is not empty and its
    characters occur in [c] in order, at strictly increasing positions
    (characters compared by equality of code points); so for a non-empty
    query it is the ordered-subsequence test, and for the empty query it is
    false for every candidate, the empty one included. *)
Theorem subseqmatch_iff_in_order (q c : str) :
  (subseqmatch q c = true <-> q <> [] /\ in_order q c) /\
  subseqmatch [] c = false.
Proof.
  split; [|done].
  destruct q as [|x q].
  - simpl. split; [done | intros [? _]; done].
  - change (subseqmatch (x :: q) c) with (subseq_loop (x :: q) c (-1)).
    rewrite subseq_loop_in_order.
    split; [intros H; split; [discriminate | exact H] | intros [_ H]; exact H].
Qed.

(** ** The order of the index *)

Lemma str_le_refl a : Py.str_le a a.
Proof. induction a as [|x a IH]; simpl; [done | right; done]. Qed.

Lemma str_le_total a b : Py.str_le a b \/ Py.str_le b a.
Proof.
  revert b. induction a as [|x a IH]; intros [|y b]; simpl; try (left; done).
  - right; done.
  - destruct (N.lt_trichotomy x y) as [Hlt|[->|Hgt]].
    + left; left; done.
    + destruct (IH b); [left | right]; right; done.
    + right; left; done.
Qed.

Lemma str_le_trans a b c : Py.str_le a b -> Py.str_le b c -> Py.str_le a c.
Proof.
  revert b c. induction a as [|x a IH]; intros [|y b] [|z c]; simpl; try done.
  intros [Hxy|[-> Hab]] [Hyz|[-> Hbc]].
  - left; lia.
  - left; done.
  - left; done.
  - right; split; [done|]. by apply (IH b).
Qed.

Lemma str_le_antisym a b : Py.str_le a b -> Py.str_le b a -> a = b.
Proof.
  revert b. induction a as [|x a IH]; intros [|y b]; simpl; try done.
  intros [Hxy|[-> Hab]] [Hyx|[Heq Hba]]; try lia.
  f_equal. by apply IH.
Qed.

#[global] Instance key_le_total : Total key_le.
Proof.
  intros a b. unfold key_le.
  destruct (Nat.lt_trichotomy (length a) (length b)) as [?|[Heq|?]].
  - left; left; done.
  - destruct (str_le_total a b); [left | right]; right; done.
  - right; left; done.
Qed.

#[global] Instance key_le_trans : Transitive key_le.
Proof.
  intros a b c [Hab|[Hab Hsab]] [Hbc|[Hbc Hsbc]]; unfold key_le.
  - left; lia.
  - left; lia.
  - left; lia.
  - right; split; [lia|]. by apply (str_le_trans a b c).
Qed.

#[global] Instance key_le_antisym : AntiSymm (=) key_le.
Proof.
  intros a b [Hab|[Hab Hsab]] [Hba|[Hba Hsba]]; try lia.
  by apply str_le_antisym.
Qed.

(** [sorted(..., key=...)] of the members of a set does not depend on the
    order in which the set hands them out. *)
Lemma sorted_set_unique (l1 l2 : list str) :
  l1 ≡ₚ l2 -> merge_sort key_le l1 = merge_sort key_le l2.
Proof.
  intros Hp. apply (Sorted_unique key_le); try apply Sorted_merge_sort; try apply _.
  by rewrite !merge_sort_Permutation.
Qed.

(** ** The scan of the search path *)

Lemma add_entries_inr (s : gset str) fs :
  Forall entry_ok fs -> exists s', add_entries s fs = inr s'.
Proof.
  intros Hall. revert s. induction Hall as [|f fs [b Hb] _ IH]; intros s; simpl.
  - by eexists.
  - rewrite Hb. apply IH.
Qed.

Lemma add_entries_inr_inv (s : gset str) fs s' :
  add_entries s fs = inr s' -> Forall entry_ok fs.
Proof.
  revert s. induction fs as [|f fs IH]; intros s Hrun; simpl in *; [constructor|].
  destruct (is_file f) as [e|b] eqn:Hf; [done|].
  constructor; [by exists b | by eapply IH].
Qed.

(** The inner loop raises the error of the first entry for which
    [is_file()] does not answer. *)
Lemma add_entries_inl (s : gset str) fs e :
  add_entries s fs = inl e <->
  exists fs1 f fs2, fs = fs1 ++ f :: fs2 /\ Forall entry_ok fs1 /\ is_file f = inl e.
Proof.
  revert s. induction fs as [|f fs IH]; intros s; simpl.
  - split; [done|]. intros (fs1 & g & fs2 & Heq & _). by destruct fs1.
  - destruct (is_file f) as [e'|b] eqn:Hf.
    + split.
      * intros [= ->]. exists [], f, fs. by conjs.
      * intros ([|g fs1] & h & fs2 & Heq & Hok & Hh); simpl in Heq.
        -- injection Heq as <- _. congruence.
        -- injection Heq as <- _. apply Forall_cons in Hok as [[b Hb] _]. congruence.
    + rewrite IH. split.
      * intros (fs1 & g & fs2 & -> & Hok & Hg).
        exists (f :: fs1), g, fs2. conjs; [done | | done].
        constructor; [by exists b | done].
      * intros ([|g fs1] & h & fs2 & Heq & Hok & Hh); simpl in Heq.
        -- injection Heq as <- _. congruence.
        -- injection Heq as <- ->. apply Forall_cons in Hok as [_ Hok].
           by exists fs1, h, fs2.
Qed.

(** The names a listing contributes. *)
Lemma add_entries_elem (s : gset str) fs s' x :
  add_entries s fs = inr s' ->
  x ∈ s' <->
  x ∈ s \/ exists f, f ∈ fs /\ is_file f = inr true /\ access_X_OK f = true /\ name f = x.
Proof.
  revert s. induction fs as [|f fs IH]; intros s Hrun; simpl in Hrun.
  - injection Hrun as <-. split; [by left|].
    intros [?|(f & Hf & _)]; [done | by apply elem_of_nil in Hf].
  - destruct (is_file f) as [e|b] eqn:Hfile; [done|].
    rewrite (IH _ Hrun). split.
    + intros [Hx|(g & Hg & ?)].
      * destruct b; simpl in Hx; [|by left].
        destruct (access_X_OK f) eqn:Hacc; simpl in Hx; [|by left].
        apply elem_of_union in Hx as [Hx|Hx]; [|by left].
        apply elem_of_singleton in Hx. right. exists f. split; [left|done].
      * right. exists g. split; [by right|done].
    + intros [Hx|(g & Hg & Hgfile & Hacc & Hname)].
      * left. destruct (b && access_X_OK f); [|done].
        apply elem_of_union. by right.
      * apply elem_of_cons in Hg as [->|Hg].
        -- left. rewrite Hfile in Hgfile. injection Hgfile as ->.
           rewrite Hacc. simpl. apply elem_of_union. left.
           by apply elem_of_singleton.
        -- right. by exists g.
Qed.

Lemma add_entries_Permutation (s : gset str) fs1 fs2 s' :
  fs1 ≡ₚ fs2 -> add_entries s fs1 = inr s' -> add_entries s fs2 = inr s'.
Proof.
  intros Hp Hrun1.
  destruct (add_entries_inr s fs2) as [s2 Hrun2].
  { rewrite <- Hp. by eapply add_entries_inr_inv. }
  rewrite Hrun2. f_equal. apply set_eq. intros x.
  rewrite (add_entries_elem _ _ _ x Hrun1), (add_entries_elem _ _ _ x Hrun2).
  split; intros [?|(f & Hf & ?)]; try (by left); right; exists f; split; try done.
  - by rewrite Hp.
  - by rewrite <- Hp.
Qed.

Lemma scan_path_same env1 env2 ps s s' :
  (forall p, is_dir env1 p = is_dir env2 p /\
             same_listing (iterdir env1 p) (iterdir env2 p)) ->
  scan_path env1 ps s = inr s' -> scan_path env2 ps s = inr s'.
Proof.
  intros Hsame. revert s. induction ps as [|p ps IH]; intros s; [done|].
  simpl. destruct (Hsame (Path p)) as [<- Hl].
  destruct (is_dir env1 (Path p)) as [e|[|]]; [done| |apply IH].
  destruct (iterdir env1 (Path p)) as [e1|l1], (iterdir env2 (Path p)) as [e2|l2];
    simpl in Hl; try done.
  destruct (add_entries s l1) as [e|s1] eqn:Hadd; [done|].
  rewrite (add_entries_Permutation s l1 l2 s1 Hl Hadd). apply IH.
Qed.

Lemma scan_path_elem env ps s s' :
  scan_path env ps s = inr s' ->
  forall x, x ∈ s' <->
    x ∈ s \/ exists p fs f,
      p ∈ List.filter (is_directory env) (Path <$> ps) /\ iterdir env p = inr fs /\
      f ∈ fs /\ is_file f = inr true /\ access_X_OK f = true /\ name f = x.
Proof.
  revert s. induction ps as [|p ps IH]; intros s Hscan x; simpl in *.
  - injection Hscan as <-. split; [by left|].
    intros [?|(q & ? & ? & Hq & _)]; [done | by apply elem_of_nil in Hq].
  - unfold is_directory at 1.
    destruct (is_dir env (Path p)) as [e|[|]] eqn:Hdir; [done| |].
    + destruct (iterdir env (Path p)) as [e|fs] eqn:Hls; [done|].
      destruct (add_entries s fs) as [e|s1] eqn:Hadd; [done|].
      rewrite (IH _ Hscan x), (add_entries_elem _ _ _ x Hadd). split.
      * intros [[Hx|(f & Hf & Hrest)]|(q & fs' & f & Hq & Hrest)].
        -- by left.
        -- right. exists (Path p), fs, f. split; [left|done].
        -- right. exists q, fs', f. split; [by right|done].
      * intros [Hx|(q & fs' & f & Hq & Hls' & Hf & Hrest)]; [by left; left|].
        apply elem_of_cons in Hq as [->|Hq].
        -- left; right. exists f. rewrite Hls in Hls'. injection Hls' as ->. done.
        -- right. by exists q, fs', f.
    + apply (IH _ Hscan x).
Qed.

(** The scan returns exactly when every turn of the outer loop passes. *)
Lemma scan_path_inr env ps s :
  Forall (dir_ok env) (Path <$> ps) -> exists s', scan_path env ps s = inr s'.
Proof.
  revert s. induction ps as [|p ps IH]; intros s Hall; simpl in *; [by eexists|].
  apply Forall_cons in Hall as [[Hdir|(Hdir & fs & Hls & Hok)] Hall]; rewrite Hdir.
  - by apply IH.
  - rewrite Hls. destruct (add_entries_inr s fs Hok) as [s1 ->]. by apply IH.
Qed.

Lemma scan_path_inr_inv env ps s s' :
  scan_path env ps s = inr s' -> Forall (dir_ok env) (Path <$> ps).
Proof.
  revert s. induction ps as [|p ps IH]; intros s Hscan; simpl in *; [constructor|].
  destruct (is_dir env (Path p)) as [e|[|]] eqn:Hdir; [done| |].
  - destruct (iterdir env (Path p)) as [e|fs] eqn:Hls; [done|].
    destruct (add_entries s fs) as [e|s1] eqn:Hadd; [done|].
    constructor; [|by apply (IH _ Hscan)].
    right. split; [done|]. exists fs. split; [done|]. by eapply add_entries_inr_inv.
  - constructor; [by left | by apply (IH _ Hscan)].
Qed.

(** It raises exactly the error of its first turn that does not pass. *)
Lemma scan_path_inl env ps s e :
  scan_path env ps s = inl e <->
  exists ps1 p ps2,
    Path <$> ps = ps1 ++ p :: ps2 /\ Forall (dir_ok env) ps1 /\ dir_raises env p e.
Proof.
  revert s. induction ps as [|q ps IH]; intros s; simpl.
  - split; [done|]. intros (ps1 & p & ps2 & Heq & _). by destruct ps1.
  - split.
    + destruct (is_dir env (Path q)) as [e'|[|]] eqn:Hdir.
      * intros [= ->]. exists [], (Path q), (Path <$> ps). conjs; [done|done|by left].
      * destruct (iterdir env (Path q)) as [e'|fs] eqn:Hls.
        -- intros [= ->]. exists [], (Path q), (Path <$> ps).
           conjs; [done|done|]. right. split; [done | by left].
        -- destruct (add_entries s fs) as [e'|s1] eqn:Hadd.
           ++ intros [= ->]. exists [], (Path q), (Path <$> ps).
              conjs; [done|done|]. right. split; [done|]. right.
              apply add_entries_inl in Hadd as (fs1 & f & fs2 & -> & Hok & Hf).
              by exists fs1, f, fs2.
           ++ intros (ps1 & p & ps2 & Heq & Hok & Hp)%IH.
              exists (Path q :: ps1), p, ps2.
        conjs; [simpl; f_equal; exact Heq | | done].
              constructor; [|done]. right. split; [done|]. exists fs.
              split; [done|]. by eapply add_entries_inr_inv.
      * intros (ps1 & p & ps2 & Heq & Hok & Hp)%IH.
        exists (Path q :: ps1), p, ps2.
        conjs; [simpl; f_equal; exact Heq | | done].
        constructor; [by left | done].
    + intros ([|q1 ps1] & p & ps2 & Heq & Hok & Hp); simpl in Heq.
      * injection Heq as -> _.
        destruct Hp as [->|[-> [->|(fs1 & f & fs2 & -> & Hfs1 & Hf)]]]; [done|done|].
        assert (add_entries s (fs1 ++ f :: fs2) = inl e) as ->; [|done].
        apply add_entries_inl. by exists fs1, f, fs2.
      * injection Heq as -> Heq. apply Forall_cons in Hok as [Hq Hok].
        assert (forall s1, scan_path env ps s1 = inl e) as Hrest.
        { intros s1. apply IH. by exists ps1, p, ps2. }
        destruct Hq as [->|(-> & fs & -> & Hfs)]; [done|].
        destruct (add_entries_inr s fs Hfs) as [s1 ->]. apply Hrest.
Qed.

(** ** The index *)

(** C3.  An index [get_path_commands] returns holds no name twice and is in
    ascending order of [(len(c), c)], each name before all the later ones;
    and it is the index of every build on the same search path with the
    same contents, in whatever order the directories list their entries and
    the set of names is iterated. *)
Theorem get_path_commands_sorted_unique
    (set_iter1 set_iter2 : gset str -> list str) (env1 env2 : Env)
    (index : list str) :
  enumerates set_iter1 -> enumerates set_iter2 ->
  same_contents env1 env2 ->
  get_path_commands set_iter1 env1 = inr index ->
  NoDup index /\ Sorted key_le index /\ StronglySorted key_le index /\
  get_path_commands set_iter2 env2 = inr index.
Proof.
  intros Hit1 Hit2 [Hpath Hsame]. unfold get_path_commands, search_path.
  rewrite <- Hpath.
  destruct (scan_path env1 _ ∅) as [e|s] eqn:Hscan; [done|].
  rewrite (scan_path_same env1 env2 _ _ _ Hsame Hscan).
  intros [= <-]. conjs.
  - rewrite merge_sort_Permutation, (Hit1 s). apply NoDup_elements.
  - apply Sorted_merge_sort, _.
  - apply StronglySorted_merge_sort; apply _.
  - f_equal. apply sorted_set_unique. by rewrite (Hit1 s), (Hit2 s).
Qed.

Lemma get_path_commands_sorted_unique_witness :
  NoDup scenario_index /\ Sorted key_le scenario_index /\
  StronglySorted key_le scenario_index /\
  get_path_commands (fun s => reverse (elements s)) (scenario_env true)
  = inr scenario_index.
Proof.
  apply (get_path_commands_sorted_unique
           elements (fun s => reverse (elements s))
           (scenario_env false) (scenario_env true) scenario_index).
  - intros s. reflexivity.
  - intros s. apply reverse_Permutation.
  - split; [reflexivity|]. intros p. split; [reflexivity|].
    simpl. unfold scenario_listing.
    destruct (bool_decide (p = lit "/usr/bin")); simpl.
    + apply (Permutation_app_comm [_; _] [_]).
    + destruct (bool_decide (p = lit "/bin")); simpl; reflexivity.
  - vm_compute. reflexivity.
Defined.

(** C4, as stated, fails: [/root] is an existing directory of the search
    path that cannot be enumerated, and the build raises the error of
    [iterdir] instead of returning the index of [/bin]. *)
Lemma unreadable_directory_aborts_build :
  search_path unreadable_env = [lit "/bin"; lit "/root"] /\
  is_dir unreadable_env (lit "/root") = inr true /\
  iterdir unreadable_env (lit "/root") = inl (OSError EACCES) /\
  get_path_commands elements unreadable_env = inl (OSError EACCES) /\
  ~ exists index, get_path_commands elements unreadable_env = inr index.
Proof.
  assert (get_path_commands elements unreadable_env = inl (OSError EACCES)) as Hrun
    by (vm_compute; reflexivity).
  conjs; try (vm_compute; reflexivity).
  intros [index Hindex]. rewrite Hrun in Hindex. discriminate.
Qed.

(** C4, amended.  [get_path_commands] passes over the entries of the search
    path for which [is_dir()] answers [False].  It returns exactly when
    every turn of its loop passes: [is_dir()] answers for every entry of
    the path, every directory among them can be enumerated, and
    [is_file()] answers for each of their entries; the index then holds
    exactly the names of the executable regular files of these
    directories.  Otherwise it raises, and what it raises is the error of
    the first turn that does not pass, be it that of [is_dir()], of the
    enumeration of a directory (permission denied, say) or of [is_file()]:
    no error is caught, and no index is built. *)
Theorem get_path_commands_returns_or_raises_first_error
    (set_iter : gset str -> list str) (env : Env) :
  enumerates set_iter ->
  ((exists index, get_path_commands set_iter env = inr index) <->
   Forall (dir_ok env) (Path <$> search_path env)) /\
  (forall index, get_path_commands set_iter env = inr index ->
                 forall x, x ∈ index <-> on_path env x) /\
  (forall e, get_path_commands set_iter env = inl e <-> first_error env e).
Proof.
  intros Hit. unfold get_path_commands, path_dirs, on_path, first_error. conjs.
  - split.
    + intros [index Hindex].
      destruct (scan_path env (search_path env) ∅) as [e|s] eqn:Hs; [done|].
      by eapply scan_path_inr_inv.
    + intros Hall.
      destruct (scan_path_inr env (search_path env) ∅ Hall) as [s ->]. by eexists.
  - intros index Hindex x.
    destruct (scan_path env (search_path env) ∅) as [e|s] eqn:Hs; [done|].
    injection Hindex as <-.
    rewrite merge_sort_Permutation, (Hit s), elem_of_elements.
    rewrite (scan_path_elem _ _ _ _ Hs x). split.
    + intros [Hx|Hx]; [by apply not_elem_of_empty in Hx | done].
    + intros Hx. by right.
  - intros e. rewrite <- (scan_path_inl env (search_path env) ∅ e).
    destruct (scan_path env (search_path env) ∅) as [e'|s]; split; congruence.
Qed.

Lemma get_path_commands_returns_or_raises_first_error_witness :
  (exists index, get_path_commands elements (scenario_env false) = inr index)
  /\ get_path_commands elements locked_env = inl (OSError ENAMETOOLONG).
Proof.
  assert (forall fs, iterdir (scenario_env false) (lit "/bin") = inr fs ->
                     Forall entry_ok fs) as Hbin.
  { intros fs [= <-].
    repeat first [apply Forall_nil_2 | apply Forall_cons_2]; by eexists. }
  split.
  - apply (proj1 (get_path_commands_returns_or_raises_first_error
                    elements (scenario_env false) (fun s => reflexivity _))).
    assert (Path <$> search_path (scenario_env false)
            = [lit "/usr/bin"; lit "/nowhere"; lit "/bin"]) as ->
      by (vm_compute; reflexivity).
    repeat first [apply Forall_nil_2 | apply Forall_cons_2].
    + right. split; [reflexivity|]. eexists. split; [reflexivity|].
      repeat first [apply Forall_nil_2 | apply Forall_cons_2]; by eexists.
    + left. reflexivity.
    + right. split; [reflexivity|]. eexists. split; [reflexivity|].
      by apply Hbin.
  - apply (proj2 (proj2 (get_path_commands_returns_or_raises_first_error
                    elements locked_env (fun s => reflexivity _)))).
    exists [lit "/bin"], (lit "/long"), [lit "/locked"].
    conjs.
    + vm_compute. reflexivity.
    + apply Forall_cons_2; [|apply Forall_nil_2].
      right. split; [reflexivity|]. eexists. split; [reflexivity|].
      by apply Hbin.
    + left. reflexivity.
Defined.

(** ** The suggestion list *)

Lemma remove_children_run (l : list str) st :
  for_each l (fun _ => remove_first_child) st
  = (inr (), with_suggestion_box (drop (length l) (suggestion_box st)) st).
Proof.
  revert st. induction l as [|x l IH]; intros st.
  - simpl. run_M. by destruct st.
  - simpl. run_M. rewrite IH. simpl. f_equal.
    unfold with_suggestion_box. simpl. f_equal.
    destruct (suggestion_box st); simpl; [apply drop_nil | done].
Qed.

Lemma append_buttons_run (l : list str) st :
  for_each l append_button st
  = (inr (), with_suggestion_box (suggestion_box st ++ l) st).
Proof.
  revert st. induction l as [|x l IH]; intros st.
  - simpl. run_M. rewrite app_nil_r. by destruct st.
  - simpl. run_M. rewrite IH. simpl. f_equal.
    unfold with_suggestion_box. simpl. by rewrite <- app_assoc.
Qed.

(** The state [refresh_suggestions] leaves, field by field. *)
Lemma refresh_suggestions_run text st :
  exists st',
    refresh_suggestions text st = (inr (), st') /\
    commands st' = commands st /\ entry_text st' = entry_text st /\
    focus st' = focus st /\ spawned st' = spawned st /\
    quit_requested st' = quit_requested st /\
    suggestion_box st' = match_list text (commands st) /\
    scroller_visible st' = negb (bool_decide (suggestion_box st' = [])) /\
    entry_hexpand st' = negb (scroller_visible st').
Proof.
  unfold refresh_suggestions, match_list.
  cbv [mbind M_bind gets]. rewrite remove_children_run. simpl.
  rewrite drop_all.
  destruct (List.filter (subseqmatch text) (commands st)) as [|m ms] eqn:Hm.
  - eexists. split; [reflexivity|]. simpl. by repeat split.
  - run_M. rewrite append_buttons_run. eexists. split; [reflexivity|].
    simpl. by repeat split.
Qed.

Lemma sublist_bool_filter {A} (f : A -> bool) (l : list A) :
  List.filter f l `sublist_of` l.
Proof.
  induction l as [|x l IH]; simpl; [constructor|].
  destruct (f x); by constructor.
Qed.

(** C2.  Whatever the text and the index, [refresh_suggestions] returns and
    leaves in the suggestion box the first 20 of the commands of the index
    that [subseqmatch] accepts for the text, in the order of the index:
    at most 20 buttons, every one a command the matcher accepts, and the
    whole a subsequence of the index; nothing is sorted or ranked again. *)
Theorem refresh_suggestions_match_list (text : str) (st : Launcher) :
  let st' := snd (refresh_suggestions text st) in
  fst (refresh_suggestions text st) = inr () /\
  suggestion_box st' = take 20 (List.filter (subseqmatch text) (commands st)) /\
  (length (suggestion_box st') <= 20)%nat /\
  suggestion_box st' `sublist_of` commands st /\
  Forall (fun cmd => subseqmatch text cmd = true) (suggestion_box st').
Proof.
  destruct (refresh_suggestions_run text st)
    as (st' & -> & _ & _ & _ & _ & _ & Hbox & _). simpl.
  rewrite Hbox. unfold match_list.
  split; [done|]. split; [done|]. split; [|split].
  - rewrite length_take. lia.
  - etrans; [apply sublist_take|]. apply sublist_bool_filter.
  - apply Forall_take. apply Forall_forall. intros cmd Hin.
    apply list_elem_of_In in Hin. by apply List.filter_In in Hin as [_ ?].
Qed.

(** ** The text of the entry *)

Lemma refresh_consistent text st st' :
  refresh_suggestions text st = (inr (), st') ->
  entry_text st = text -> consistent st'.
Proof.
  intros Hrun Htext.
  destruct (refresh_suggestions_run text st)
    as (st2 & Hrun2 & Hc & Ht & _ & _ & _ & Hbox & Hvis & Hexp).
  rewrite Hrun in Hrun2. injection Hrun2 as <-.
  unfold consistent. rewrite Ht, Hc, Htext. split; [done|]. split; [|done].
  rewrite Hvis. destruct (bool_decide_reflect (suggestion_box st' = [])) as [->|Hne];
    simpl; split; done.
Qed.

Lemma consistent_with_entry_text st :
  consistent st -> consistent (with_entry_text (entry_text st) st).
Proof. done. Qed.

(** The two editables of [Gtk] emit "changed" as the handlers need. *)
Lemma delete_then_insert_emits : emits_changed Gtk.delete_then_insert.
Proof.
  intros old new. unfold Gtk.delete_then_insert. split.
  - intros Hne Hnil. apply app_eq_nil in Hnil as [Ho Hn].
    destruct old; [|done]. destruct new; [|done]. done.
  - intros t. destruct old, new; simpl; intros [= <-]; done.
Qed.

Lemma once_if_different_emits : emits_changed Gtk.once_if_different.
Proof.
  intros old new. unfold Gtk.once_if_different. split.
  - intros Hne. by destruct (decide (old = new)).
  - intros t. destruct (decide (old = new)); simpl; intros [= <-]; done.
Qed.

Section EntryText.

Variable changed_at : str -> str -> list str.

(** The emissions of "changed" while a text is replaced: each one rebuilds
    the suggestion box for the text the entry holds then. *)
Lemma changed_loop_run (ts : list str) st :
  exists st',
    for_each ts (fun t => modify (with_entry_text t) ;; on_entry_changed) st
      = (inr (), st') /\
    commands st' = commands st /\ focus st' = focus st /\
    spawned st' = spawned st /\ quit_requested st' = quit_requested st /\
    match last ts with
    | Some t => entry_text st' = t /\ consistent st'
    | None => st' = st
    end.
Proof.
  set (body := fun t => modify (with_entry_text t) ;; on_entry_changed).
  revert st. induction ts as [|t ts IH]; intros st.
  - exists st. by conjs.
  - destruct (refresh_suggestions_run t (with_entry_text t st))
      as (st1 & Hrun & Hc & Ht & Hf & Hs & Hq & _).
    assert (body t st = (inr (), st1)) as Hbody.
    { unfold body, on_entry_changed. cbv [mbind M_bind modify gets]. exact Hrun. }
    simpl. cbv [mbind M_bind]. rewrite Hbody.
    destruct (IH st1) as (st' & -> & Hc' & Hf' & Hs' & Hq' & Hlast).
    exists st'. rewrite last_cons.
    split; [done|]. rewrite Hc', Hf', Hs', Hq'. conjs; try done.
    destruct (last ts) as [t'|]; [done|]. subst st'.
    split; [done|]. by apply (refresh_consistent t (with_entry_text t st)).
Qed.

(** [set_text] returns, leaves the text asked for in the entry, and touches
    neither the index, the focus, the processes nor the quit request. *)
Lemma set_text_run text st :
  exists st',
    set_text changed_at text st = (inr (), st') /\
    entry_text st' = text /\ commands st' = commands st /\
    focus st' = focus st /\ spawned st' = spawned st /\
    quit_requested st' = quit_requested st /\
    (emits_changed changed_at -> consistent st -> consistent st').
Proof.
  destruct (changed_loop_run (changed_at (entry_text st) text) st)
    as (st' & Hloop & Hc & Hf & Hs & Hq & Hlast).
  change (set_text changed_at text st)
    with (match for_each (changed_at (entry_text st) text)
                  (fun t => modify (with_entry_text t) ;; on_entry_changed) st with
          | (inr _, st1) => modify (with_entry_text text) st1
          | (inl e, st1) => (inl e, st1)
          end).
  rewrite Hloop. cbv [modify]. eexists. split; [reflexivity|]. simpl. conjs; try done.
  intros Hchanged Hst. destruct (Hchanged (entry_text st) text) as [Hne Hlast'].
  destruct (last (changed_at (entry_text st) text)) as [t|] eqn:Hl.
  - destruct Hlast as [Ht Hst']. rewrite (Hlast' t eq_refl) in Ht.
    rewrite <- Ht. by apply consistent_with_entry_text.
  - subst st'. apply last_None in Hl.
    destruct (decide (entry_text st = text)) as [<-|Hdiff]; [|by destruct (Hne Hdiff)].
    by apply consistent_with_entry_text.
Qed.

Lemma append_char_run char st :
  exists st',
    append_char changed_at char st = (inr (), st') /\
    entry_text st' = (if decide (char = backspace)
                      then Py.drop_last (entry_text st)
                      else entry_text st ++ char) /\
    commands st' = commands st /\ focus st' = focus st /\
    spawned st' = spawned st /\ quit_requested st' = quit_requested st /\
    (emits_changed changed_at -> consistent st -> consistent st').
Proof.
  unfold append_char. cbv [mbind M_bind gets]. apply set_text_run.
Qed.

End EntryText.

(** ** The handlers keep the suggestion box in step with the entry *)

Lemma match_list_empty_text index : match_list [] index = [].
Proof.
  unfold match_list. by induction index as [|c l IH].
Qed.

Section Invariant.

Variable changed_at : str -> str -> list str.
Variable keyval_to_unicode : N -> N.
Hypothesis Hchanged : emits_changed changed_at.

Lemma on_key_pressed_consistent keyval state st :
  consistent st -> consistent (snd (on_key_pressed keyval state st)).
Proof.
  unfold on_key_pressed. destruct (N.eqb keyval Gdk.KEY_Escape); run_M; done.
Qed.

Lemma on_scroller_key_pressed_consistent keyval state st :
  consistent st ->
  consistent (snd (on_scroller_key_pressed changed_at keyval_to_unicode keyval state st)).
Proof.
  intros Hst. unfold on_scroller_key_pressed.
  destruct (existsb (N.eqb keyval) passed_to_gtk); [done|].
  cbv [mbind M_bind].
  destruct (N.eqb (keyval_to_unicode keyval) 0).
  - cbv [mret M_ret].
    destruct (append_char_run changed_at [] st) as (st' & -> & _ & _ & _ & _ & _ & Hc).
    run_M. simpl. by apply Hc.
  - unfold lift, Py.chr. destruct (keyval_to_unicode keyval <=? 1114111)%N; [|done].
    destruct (append_char_run changed_at [keyval_to_unicode keyval] st)
      as (st' & -> & _ & _ & _ & _ & _ & Hc).
    run_M. simpl. by apply Hc.
Qed.

Lemma set_cmd_consistent cmd st :
  consistent st -> consistent (snd ((set_cmd changed_at cmd ;; focus_entry) st)).
Proof.
  intros Hst. unfold set_cmd. cbv [mbind M_bind].
  destruct (set_text_run changed_at (shlex.quote cmd) st) as (st' & -> & _ & _ & _ & _ & _ & Hc).
  run_M. simpl. by apply Hc.
Qed.

Lemma on_btn_key_pressed_consistent label keyval state st :
  consistent st ->
  consistent (snd (on_btn_key_pressed changed_at label keyval state st)).
Proof.
  intros Hst. unfold on_btn_key_pressed.
  destruct (N.eqb keyval Gdk.KEY_space).
  - cbv [mbind M_bind].
    destruct (append_char_run changed_at (lit " ") st) as (st' & -> & _ & _ & _ & _ & _ & Hc).
    run_M. simpl. by apply Hc.
  - destruct (N.eqb keyval Gdk.KEY_Return); [|done].
    destruct (N.eqb state Gdk.CONTROL_MASK).
    + cbv [mbind M_bind]. unfold set_cmd.
      destruct (set_text_run changed_at (shlex.quote label) st)
        as (st' & -> & _ & _ & _ & _ & _ & Hc).
      run_M. simpl. by apply Hc.
    + run_M. done.
Qed.

Lemma on_btn_clicked_consistent state cmd st :
  consistent st -> consistent (snd (on_btn_clicked changed_at state cmd st)).
Proof.
  intros Hst. unfold on_btn_clicked.
  destruct (N.eqb state Gdk.CONTROL_MASK).
  - by apply set_cmd_consistent.
  - run_M. done.
Qed.

Lemma on_activate_entry_consistent st :
  consistent st -> consistent (snd (on_activate_entry st)).
Proof.
  intros Hst. unfold on_activate_entry. cbv [mbind M_bind gets].
  destruct (Py.strip (entry_text st)); run_M; done.
Qed.

Lemma bubble_consistent handlers st :
  Forall (fun h : M bool => forall st, consistent st -> consistent (snd (h st)))
         handlers ->
  consistent st -> consistent (snd (bubble handlers st)).
Proof.
  intros Hhs. revert st. induction Hhs as [|h hs Hh _ IH]; intros st Hst; [done|].
  simpl. specialize (Hh st Hst).
  destruct (h st) as [[e|[|]] st']; simpl in *; [by apply IH | done | by apply IH].
Qed.

Lemma handle_consistent st ev :
  consistent st -> consistent (handle changed_at keyval_to_unicode st ev).
Proof.
  intros Hst. unfold handle. destruct (quit_requested st); [done|].
  destruct ev as [keyval state|i state|text| |f].
  - unfold key_press, key_controllers. apply bubble_consistent; [|done].
    destruct (focus st) as [|i].
    + apply Forall_cons_2; [|apply Forall_nil_2].
      intros; by apply on_key_pressed_consistent.
    + destruct (suggestion_box st !! i) as [label|]; [|apply Forall_nil_2].
      repeat first [apply Forall_nil_2 | apply Forall_cons_2]; intros.
      * by apply on_btn_key_pressed_consistent.
      * by apply on_scroller_key_pressed_consistent.
      * by apply on_key_pressed_consistent.
  - unfold pointer_press. destruct (suggestion_box st !! i) as [cmd|]; [|done].
    by apply on_btn_clicked_consistent.
  - destruct (set_text_run changed_at text st) as (st' & -> & _ & _ & _ & _ & _ & Hc).
    by apply Hc.
  - by apply on_activate_entry_consistent.
  - done.
Qed.

Lemma run_consistent index evs : consistent (run changed_at keyval_to_unicode index evs).
Proof.
  unfold run. induction evs as [|ev evs IH] using rev_ind.
  - unfold consistent. simpl. rewrite match_list_empty_text. by conjs.
  - rewrite foldl_snoc. by apply handle_consistent.
Qed.

End Invariant.

(** C5.  After [refresh_suggestions], for any text and from any state, the
    scroller is visible exactly when the suggestion box is not empty and the
    entry expands horizontally exactly when the scroller is hidden; for the
    empty text the box is empty and the scroller hidden.  And so it stays:
    after any sequence of events from the start, the box holds the match
    list of the text in the entry, with the same visibility rule. *)
Theorem refresh_suggestions_visibility
    (text : str) (st : Launcher)
    (changed_at : str -> str -> list str) (keyval_to_unicode : N -> N)
    (index : list str) (evs : list Event) :
  let st' := snd (refresh_suggestions text st) in
  let st0 := snd (refresh_suggestions [] st) in
  (scroller_visible st' = true <-> suggestion_box st' <> []) /\
  entry_hexpand st' = negb (scroller_visible st') /\
  (suggestion_box st0 = [] /\ scroller_visible st0 = false /\
   entry_hexpand st0 = true) /\
  (emits_changed changed_at ->
   consistent (run changed_at keyval_to_unicode index evs)).
Proof.
  destruct (refresh_suggestions_run text st)
    as (st' & -> & _ & _ & _ & _ & _ & _ & Hvis & Hexp).
  destruct (refresh_suggestions_run [] st)
    as (st0 & -> & _ & _ & _ & _ & _ & Hbox0 & Hvis0 & Hexp0).
  simpl. split; [|split; [done|split]].
  - rewrite Hvis.
    destruct (bool_decide_reflect (suggestion_box st' = [])) as [->|Hne];
      simpl; split; done.
  - rewrite match_list_empty_text in Hbox0. rewrite Hexp0, Hvis0, Hbox0. done.
  - intros Hchanged. by apply run_consistent.
Qed.

Lemma refresh_suggestions_visibility_witness :
  consistent (run Gtk.delete_then_insert Gdk.keyval_to_unicode_direct scenario_index
                  [Edit (lit "l"); Edit (lit "ls"); FocusMoved (OnButton 1);
                   KeyPress 120 0; KeyPress Gdk.KEY_Return Gdk.CONTROL_MASK]).
Proof.
  apply (refresh_suggestions_visibility [] (build_ui scenario_index)
           Gtk.delete_then_insert Gdk.keyval_to_unicode_direct).
  exact delete_then_insert_emits.
Defined.

(** ** Quoting *)

Lemma safe_not_quote c :
  shlex.safe c = true -> c <> shlex.apostrophe /\ c <> shlex.dquote.
Proof.
  intros Hs. split; intros ->; vm_compute in Hs; discriminate.
Qed.

Lemma word_bare_safe s acc :
  forallb shlex.safe s = true -> sh.word sh.Bare acc s = Some (acc ++ s).
Proof.
  revert acc. induction s as [|c s IH]; intros acc Hs; simpl.
  - by rewrite app_nil_r.
  - simpl in Hs. apply andb_prop in Hs as [Hc Hs].
    destruct (safe_not_quote c Hc) as [Ha Hd].
    apply N.eqb_neq in Ha, Hd. rewrite Ha, Hd, Hc.
    rewrite IH by done. by rewrite <- app_assoc.
Qed.

Lemma word_single_escape s acc rest :
  sh.word sh.Single acc (shlex.escape s ++ shlex.apostrophe :: rest)
  = sh.word sh.Bare (acc ++ s) rest.
Proof.
  revert acc. induction s as [|c s IH]; intros acc.
  - simpl. by rewrite app_nil_r.
  - simpl. destruct (N.eqb_spec c shlex.apostrophe) as [->|Hne].
    + simpl. rewrite IH. by rewrite <- app_assoc.
    + simpl. apply N.eqb_neq in Hne. rewrite Hne.
      rewrite IH. by rewrite <- app_assoc.
Qed.

(** The shell reads [shlex.quote(s)] as the one word [s]. *)
Lemma quote_single_token s : sh.single_token (shlex.quote s) s.
Proof.
  unfold sh.single_token, shlex.quote. destruct s as [|c s]; [done|].
  destruct (forallb shlex.safe (c :: s)) eqn:Hsafe.
  - by apply word_bare_safe.
  - change (sh.word sh.Bare [] ([shlex.apostrophe] ++ shlex.escape (c :: s) ++ [shlex.apostrophe]))
      with (sh.word sh.Single [] (shlex.escape (c :: s) ++ shlex.apostrophe :: [])).
    by rewrite word_single_escape.
Qed.

(** ** Return and pointer press on a suggestion *)

Section Buttons.

Variable changed_at : str -> str -> list str.
Variable keyval_to_unicode : N -> N.
Variables (st : Launcher) (i : nat) (n : str).
Hypothesis Hbutton : suggestion_box st !! i = Some n.
Hypothesis Hfocus : focus st = OnButton i.

Lemma key_press_on_button keyval state :
  key_press changed_at keyval_to_unicode keyval state st
  = bubble [on_btn_key_pressed changed_at n keyval state;
            on_scroller_key_pressed changed_at keyval_to_unicode keyval state;
            on_key_pressed keyval state] st.
Proof. unfold key_press, key_controllers. by rewrite Hfocus, Hbutton. Qed.

(** With a modifier state that is exactly [CONTROL_MASK], Return and the
    pointer press pick the suggestion. *)
Lemma exact_control_picks :
  exists st',
    key_press changed_at keyval_to_unicode Gdk.KEY_Return Gdk.CONTROL_MASK st
      = (true, st') /\
    pointer_press changed_at i Gdk.CONTROL_MASK st = st' /\
    entry_text st' = shlex.quote n /\ focus st' = OnEntry /\
    spawned st' = spawned st /\ quit_requested st' = quit_requested st.
Proof.
  rewrite key_press_on_button. unfold pointer_press. rewrite Hbutton.
  unfold bubble, on_btn_key_pressed, on_btn_clicked. simpl.
  unfold set_cmd. cbv [mbind M_bind].
  destruct (set_text_run changed_at (shlex.quote n) st)
    as (st' & -> & Ht & _ & _ & Hs & Hq & _).
  run_M. simpl. eexists. by conjs.
Qed.

(** Any other modifier state runs the command. *)
Lemma other_state_runs state :
  state <> Gdk.CONTROL_MASK ->
  key_press changed_at keyval_to_unicode Gdk.KEY_Return state st
    = (true, launched (shlex.quote n) st) /\
  pointer_press changed_at i state st = launched (shlex.quote n) st.
Proof.
  intros Hne. apply N.eqb_neq in Hne.
  rewrite key_press_on_button. unfold pointer_press. rewrite Hbutton.
  unfold bubble, on_btn_key_pressed, on_btn_clicked. simpl. rewrite Hne.
  by run_M.
Qed.

End Buttons.

Lemma control_not_held_ne state :
  Gdk.control_held state = false -> state <> Gdk.CONTROL_MASK.
Proof. intros H ->. vm_compute in H. discriminate. Qed.

(** C6.  Return pressed on the focused suggestion [lsblk] with Control held
    while Caps Lock is on (the modifier state [CONTROL_MASK | LOCK_MASK]),
    and a pointer press in the same state: the handlers compare the state
    with [CONTROL_MASK] for equality, so they run [lsblk] and quit; the
    text of the entry is not replaced and the focus stays on the button. *)
Theorem control_with_caps_lock_runs
    (changed_at : str -> str -> list str) (keyval_to_unicode : N -> N) :
  let st := scenario_lsblk_focused in
  let state := N.lor Gdk.CONTROL_MASK Gdk.LOCK_MASK in
  suggestion_box st !! 1%nat = Some (lit "lsblk") /\ focus st = OnButton 1 /\
  Gdk.control_held state = true /\
  key_press changed_at keyval_to_unicode Gdk.KEY_Return state st
    = (true, launched (lit "lsblk") st) /\
  pointer_press changed_at 1 state st = launched (lit "lsblk") st /\
  entry_text (launched (lit "lsblk") st) = lit "ls" /\
  focus (launched (lit "lsblk") st) = OnButton 1 /\
  quit_requested (launched (lit "lsblk") st) = true /\
  spawned (launched (lit "lsblk") st) = [{| args := lit "lsblk"; shell := true |}].
Proof. by vm_compute. Qed.

(** C7.  Return pressed on a focused suggestion [n], or a pointer press on
    it, in a modifier state without Control: [Popen] is called once more,
    with [shlex.quote(n)] for the shell, a line the shell reads as the one
    word [n]; [quit()] is called in the same handler, the key press is
    claimed, and nothing else of the state changes. *)
Theorem plain_return_runs_command
    (changed_at : str -> str -> list str) (keyval_to_unicode : N -> N)
    (st : Launcher) (i : nat) (n : str) (state : N) :
  suggestion_box st !! i = Some n ->
  focus st = OnButton i ->
  Gdk.control_held state = false ->
  let st' := launched (shlex.quote n) st in
  key_press changed_at keyval_to_unicode Gdk.KEY_Return state st = (true, st') /\
  pointer_press changed_at i state st = st' /\
  spawned st' = spawned st ++ [{| args := shlex.quote n; shell := true |}] /\
  sh.single_token (shlex.quote n) n /\
  quit_requested st' = true /\
  entry_text st' = entry_text st /\ suggestion_box st' = suggestion_box st.
Proof.
  intros Hbutton Hfocus Hctrl. simpl.
  destruct (other_state_runs changed_at keyval_to_unicode st i n Hbutton Hfocus state)
    as [Hkey Hptr]; [by apply control_not_held_ne|].
  conjs; try done. apply quote_single_token.
Qed.

Lemma plain_return_runs_command_witness :
  key_press Gtk.delete_then_insert Gdk.keyval_to_unicode_direct
            Gdk.KEY_Return 0 scenario_lsblk_focused
  = (true, launched (lit "lsblk") scenario_lsblk_focused).
Proof.
  apply (plain_return_runs_command Gtk.delete_then_insert Gdk.keyval_to_unicode_direct
           scenario_lsblk_focused 1 (lit "lsblk") 0%N);
    reflexivity.
Defined.

(** ** Activation of the entry *)

(** C8, as stated, fails: with the text [ ls] in the entry (a blank, then
    [ls]) the trimmed text is not empty, and the line handed to the shell is
    [ls], not the text of the entry. *)
Lemma activate_dispatches_not_the_entry_text :
  let st := with_entry_text (lit " ls") (build_ui scenario_index) in
  Py.strip (entry_text st) <> [] /\
  spawned (activate st) <> spawned st ++ [{| args := entry_text st; shell := true |}] /\
  spawned (activate st) = [{| args := lit "ls"; shell := true |}].
Proof. by vm_compute. Qed.

(** C8, amended.  When the entry is activated and its text, trimmed, is not
    empty, [Popen] is called once more with the trimmed text as a line for
    the shell, untouched otherwise, and [quit()] is called; when the trimmed
    text is empty the handler returns with the state as it was.  It never
    raises. *)
Theorem activate_dispatches_trimmed_text (st : Launcher) :
  let cmdline := Py.strip (entry_text st) in
  (cmdline <> [] ->
     activate st = launched cmdline st /\
     spawned (activate st) = spawned st ++ [{| args := cmdline; shell := true |}] /\
     quit_requested (activate st) = true) /\
  (cmdline = [] -> activate st = st) /\
  fst (on_activate_entry st) = inr ().
Proof.
  simpl. unfold activate, on_activate_entry. cbv [mbind M_bind gets].
  destruct (Py.strip (entry_text st)) as [|c l]; run_M; simpl.
  - conjs; [intros H; by destruct H | done | done].
  - conjs; [intros _; by conjs | intros H; discriminate | done].
Qed.

Lemma activate_dispatches_trimmed_text_witness :
  activate (with_entry_text (lit " echo hi && true ") (build_ui scenario_index))
  = launched (lit "echo hi && true")
             (with_entry_text (lit " echo hi && true ") (build_ui scenario_index))
  /\ activate (with_entry_text (lit "  ") (build_ui scenario_index))
     = with_entry_text (lit "  ") (build_ui scenario_index).
Proof.
  split.
  - apply (proj1 (activate_dispatches_trimmed_text
                    (with_entry_text (lit " echo hi && true ") (build_ui scenario_index)))).
    vm_compute. discriminate.
  - apply (proj1 (proj2 (activate_dispatches_trimmed_text
                    (with_entry_text (lit "  ") (build_ui scenario_index))))).
    reflexivity.
Defined.

(** ** Escape *)

(** C9.  Whatever widget has the focus, the entry or a button of the
    suggestion box, and whatever the text, the list and the modifier state,
    a press of Escape is claimed by the handler of the root box, which calls
    [quit()] and changes nothing else; the handlers of the button and of the
    scroller, which see the key first when a button has the focus, return
    [False] and leave the state alone. *)
Theorem escape_terminates
    (changed_at : str -> str -> list str) (keyval_to_unicode : N -> N)
    (st : Launcher) (state : N) (label : str) :
  focus_exists st ->
  key_press changed_at keyval_to_unicode Gdk.KEY_Escape state st
    = (true, with_quit_requested true st) /\
  quit_requested
    (snd (key_press changed_at keyval_to_unicode Gdk.KEY_Escape state st)) = true /\
  on_scroller_key_pressed changed_at keyval_to_unicode Gdk.KEY_Escape state st
    = (inr false, st) /\
  on_btn_key_pressed changed_at label Gdk.KEY_Escape state st = (inr false, st).
Proof.
  intros Hfocus.
  assert (key_press changed_at keyval_to_unicode Gdk.KEY_Escape state st
          = (true, with_quit_requested true st)) as Hkey.
  { unfold key_press, key_controllers, focus_exists in *.
    destruct (focus st) as [|i]; [done|].
    destruct Hfocus as [l ->]. done. }
  rewrite Hkey. by conjs.
Qed.

Lemma escape_terminates_witness :
  quit_requested
    (snd (key_press Gtk.delete_then_insert Gdk.keyval_to_unicode_direct
            Gdk.KEY_Escape 0 scenario_lsblk_focused)) = true.
Proof.
  apply (escape_terminates Gtk.delete_then_insert Gdk.keyval_to_unicode_direct
           scenario_lsblk_focused 0%N (lit "lsblk")).
  vm_compute. by eexists.
Defined.

(** ** Keys without a character, and backspace *)

(** C10.  A key that is not among those left to GTK and that
    [keyval_to_unicode] maps to [0]: the handler of the scroller claims it,
    the text of the entry is as before and the focus is on the entry;
    nothing is started and no quit is requested.  So does a press of such a
    key while a button has the focus (the space key, which has a character,
    is the one key the button's own handler takes before the scroller's).
    [append_char] returns for every argument and state, and after a
    backspace on an empty entry the entry is empty. *)
Theorem unprintable_key_refocuses_entry
    (changed_at : str -> str -> list str) (keyval_to_unicode : N -> N)
    (st : Launcher) (keyval state : N) (i : nat) (label char : str) :
  keyval ∉ passed_to_gtk ->
  keyval_to_unicode keyval = 0%N ->
  (exists st',
     on_scroller_key_pressed changed_at keyval_to_unicode keyval state st
       = (inr true, st') /\
     entry_text st' = entry_text st /\ focus st' = OnEntry /\
     spawned st' = spawned st /\ quit_requested st' = quit_requested st /\
     (focus st = OnButton i -> suggestion_box st !! i = Some label ->
      keyval <> Gdk.KEY_space ->
      key_press changed_at keyval_to_unicode keyval state st = (true, st'))) /\
  (exists st', append_char changed_at char st = (inr (), st')) /\
  (entry_text st = [] ->
   exists st', append_char changed_at backspace st = (inr (), st') /\
               entry_text st' = []).
Proof.
  intros Hkey Hcp.
  assert (existsb (N.eqb keyval) passed_to_gtk = false) as Hex.
  { apply not_true_is_false. intros Hx. apply Hkey.
    apply List.existsb_exists in Hx as (k & Hin & Hk).
    apply N.eqb_eq in Hk as ->. by apply list_elem_of_In. }
  conjs.
  - destruct (append_char_run changed_at [] st)
      as (st1 & Hrun & Ht & _ & _ & Hs & Hq & _).
    simpl in Ht. rewrite app_nil_r in Ht.
    assert (on_scroller_key_pressed changed_at keyval_to_unicode keyval state st
            = (inr true, with_focus OnEntry st1)) as Hscroller.
    { unfold on_scroller_key_pressed. rewrite Hex, Hcp. simpl.
      cbv [mbind M_bind mret M_ret]. rewrite Hrun. by run_M. }
    exists (with_focus OnEntry st1). conjs; try done.
    intros Hfocus Hbutton Hspace.
    rewrite (key_press_on_button _ _ _ _ _ Hbutton Hfocus).
    assert (keyval <> Gdk.KEY_Return) as Hret.
    { intros ->. apply Hkey. unfold passed_to_gtk. set_solver. }
    apply N.eqb_neq in Hspace, Hret.
    unfold bubble, on_btn_key_pressed. rewrite Hspace, Hret. simpl.
    by rewrite Hscroller.
  - destruct (append_char_run changed_at char st) as (st' & Hrun & _). by exists st'.
  - intros Hempty.
    destruct (append_char_run changed_at backspace st) as (st' & Hrun & Ht & _).
    exists st'. split; [done|]. rewrite Ht, Hempty.
    by destruct (decide (backspace = backspace)).
Qed.

Lemma unprintable_key_refocuses_entry_witness :
  (exists st',
     key_press Gtk.delete_then_insert Gdk.keyval_to_unicode_direct 0xff51 0
               scenario_lsblk_focused = (true, st') /\
     entry_text st' = lit "ls" /\ focus st' = OnEntry)
  /\ (exists st',
        append_char Gtk.delete_then_insert backspace (build_ui scenario_index)
          = (inr (), st') /\ entry_text st' = []).
Proof.
  assert (0xff51%N ∉ passed_to_gtk) as Hleft.
  { apply (bool_decide_unpack _). vm_compute. exact I. }
  split.
  - destruct (unprintable_key_refocuses_entry
                Gtk.delete_then_insert Gdk.keyval_to_unicode_direct
                scenario_lsblk_focused 0xff51%N 0%N 1 (lit "lsblk") [] Hleft eq_refl)
      as [(st' & _ & Ht & Hf & _ & _ & Hkey) _].
    exists st'. split; [|by split].
    apply Hkey; [reflexivity | reflexivity | vm_compute; discriminate].
  - apply (unprintable_key_refocuses_entry
             Gtk.delete_then_insert Gdk.keyval_to_unicode_direct
             (build_ui scenario_index) 0xff51%N 0%N 1 (lit "lsblk") [] Hleft eq_refl).
    reflexivity.
Defined.

(** ** The scenarios of the specification *)

(** A: the index of [ls], [lsblk] and [cat], and the match list of [ls].
    The launcher with [ls] typed and the focus moved to [lsblk] is the one
    of the scenarios, under either editable.
    C: Return with exactly Control held copies [lsblk] into the entry.
    D: the key [x] on the focused button goes to the entry.
    E: the line of the entry goes to the shell as typed. *)
Example scenarios :
  get_path_commands elements (scenario_env false) = inr scenario_index /\
  match_list (lit "ls") scenario_index = [lit "ls"; lit "lsblk"] /\
  run Gtk.delete_then_insert Gdk.keyval_to_unicode_direct scenario_index
      [Edit (lit "ls"); FocusMoved (OnButton 1)] = scenario_lsblk_focused /\
  run Gtk.once_if_different Gdk.keyval_to_unicode_direct scenario_index
      [Edit (lit "ls"); FocusMoved (OnButton 1)] = scenario_lsblk_focused /\
  (let st := snd (key_press Gtk.delete_then_insert Gdk.keyval_to_unicode_direct
                            Gdk.KEY_Return Gdk.CONTROL_MASK scenario_lsblk_focused) in
   entry_text st = lit "lsblk" /\ focus st = OnEntry /\ spawned st = [] /\
   quit_requested st = false) /\
  (let st := snd (key_press Gtk.delete_then_insert Gdk.keyval_to_unicode_direct
                            120 0 scenario_lsblk_focused) in
   entry_text st = lit "lsx" /\ focus st = OnEntry /\
   suggestion_box st = match_list (lit "lsx") scenario_index) /\
  activate (with_entry_text (lit "echo hi && true") (build_ui scenario_index))
  = launched (lit "echo hi && true")
             (with_entry_text (lit "echo hi && true") (build_ui scenario_index)).
Proof. by vm_compute. Qed.

(** * Further properties of the code *)

(** ** The matcher and the subsequence relation *)

Lemma occurs_at_sublist (c q : str) (s : nat) ps :
  Forall2 (fun p ch => c !! p = Some ch) ps q -> Sorted lt ps ->
  Forall (fun p => (s <= p)%nat) ps ->
  q `sublist_of` drop s c.
Proof.
  revert s ps. induction q as [|ch q IH]; intros s ps HF HS Hge.
  - apply sublist_nil_l.
  - apply Forall2_cons_inv_r in HF as (p & ps' & Hc & HF & ->).
    apply Forall_cons in Hge as [Hsp _].
    assert (q `sublist_of` drop (S p) c) as Hq.
    { apply (IH _ ps'); [done | by apply Sorted_inv in HS as [? _] |].
      apply Forall_forall. intros r Hr.
      pose proof (Sorted_lt_head_lt _ _ _ HS Hr). lia. }
    rewrite <- (take_drop (p - s) (drop s c)), drop_drop.
    replace (s + (p - s))%nat with p by lia.
    rewrite (drop_S c ch p Hc). apply sublist_inserts_l. by apply sublist_skip.
Qed.

Lemma sublist_occurs_at (q c : str) :
  q `sublist_of` c -> in_order q c.
Proof.
  induction 1 as [|x q c _ [ps [HF HS]]|x q c _ [ps [HF HS]]].
  - exists []. split; constructor.
  - exists (0%nat :: (S <$> ps)). split.
    + constructor; [done|]. apply Forall2_fmap_l.
      eapply Forall2_impl; [exact HF|]. done.
    + constructor.
      * clear HF. induction HS as [|p ps HS IH Hhd]; simpl; constructor; [done|].
        destruct Hhd; simpl; constructor. lia.
      * destruct ps; simpl; constructor. lia.
  - exists (S <$> ps). split.
    + apply Forall2_fmap_l. eapply Forall2_impl; [exact HF|]. done.
    + clear HF. induction HS as [|p ps HS IH Hhd]; simpl; constructor; [done|].
      destruct Hhd; simpl; constructor. lia.
Qed.

Lemma in_order_sublist (q c : str) : in_order q c <-> q `sublist_of` c.
Proof.
  split; [|apply sublist_occurs_at].
  intros [ps [HF HS]].
  change c with (drop 0 c). apply (occurs_at_sublist c q 0 ps HF HS).
  apply Forall_forall. intros; lia.
Qed.

Lemma subseqmatch_sublist (q c : str) :
  subseqmatch q c = true <-> q <> [] /\ q `sublist_of` c.
Proof.
  destruct q as [|x q].
  - simpl. split; [done | intros [? _]; done].
  - change (subseqmatch (x :: q) c) with (subseq_loop (x :: q) c (-1)).
    rewrite subseq_loop_in_order, in_order_sublist.
    split; [intros H; split; [discriminate | exact H] | intros [_ H]; exact H].
Qed.

Lemma sublist_same_length {A} (l1 l2 : list A) :
  l1 `sublist_of` l2 -> (length l2 <= length l1)%nat -> l1 = l2.
Proof.
  induction 1 as [|x l1 l2 Hsub IH|x l1 l2 Hsub IH]; simpl; intros Hlen.
  - done.
  - f_equal. apply IH. lia.
  - apply sublist_length in Hsub. lia.
Qed.

Lemma bool_filter_sublist_impl {A} (f g : A -> bool) (l : list A) :
  (forall x, f x = true -> g x = true) ->
  List.filter f l `sublist_of` List.filter g l.
Proof.
  intros Himpl. induction l as [|x l IH]; simpl; [constructor|].
  destruct (f x) eqn:Hf.
  - rewrite (Himpl x Hf). by constructor.
  - destruct (g x); [by constructor | done].
Qed.

Lemma StronglySorted_sublist {A} (R : relation A) (l1 l2 : list A) :
  l1 `sublist_of` l2 -> StronglySorted R l2 -> StronglySorted R l1.
Proof.
  induction 1 as [|x l1 l2 Hsub IH|x l1 l2 Hsub IH]; intros HS.
  - constructor.
  - apply StronglySorted_inv in HS as [HS HF]. constructor; [by apply IH|].
    apply Forall_forall. intros y Hy. rewrite Forall_forall in HF.
    apply HF. by eapply elem_of_sublist.
  - apply StronglySorted_inv in HS as [HS _]. by apply IH.
Qed.

Lemma subseqmatch_longer (q c : str) :
  subseqmatch q c = true ->
  (length q <= length c)%nat /\ (length q = length c -> q = c).
Proof.
  intros [_ Hsub]%subseqmatch_sublist. split.
  - by apply sublist_length.
  - intros Hlen. apply sublist_same_length; [done | lia].
Qed.

Lemma subseqmatch_self (q : str) : q <> [] -> subseqmatch q q = true.
Proof. intros Hne. by apply subseqmatch_sublist. Qed.

(** X1.  A candidate that [subseqmatch] accepts is at least as long as the
    query, and one of the same length is the query itself; a query that is
    not empty matches itself. *)
Theorem subseqmatch_length (q c : str) :
  (subseqmatch q c = true ->
   (length q <= length c)%nat /\ (length q = length c -> q = c)) /\
  (q <> [] -> subseqmatch q q = true).
Proof.
  split; [apply subseqmatch_longer | apply subseqmatch_self].
Qed.

Lemma subseqmatch_length_witness :
  ((length (lit "ls") <= length (lit "lsblk"))%nat /\
   (length (lit "ls") = length (lit "lsblk") -> lit "ls" = lit "lsblk")) /\
  subseqmatch (lit "ls") (lit "ls") = true.
Proof.
  split.
  - apply (proj1 (subseqmatch_length (lit "ls") (lit "lsblk"))). reflexivity.
  - apply (proj2 (subseqmatch_length (lit "ls") (lit "ls"))). discriminate.
Defined.

(** X2.  Typing more narrows the suggestions: when a query that is not
    empty is a subsequence of a longer one (so when characters are added to
    it, at the end or anywhere), every command the longer query matches the
    shorter one matches too, in the same order; and when the matches of the
    shorter query were all shown (no more than 20), the buttons for the
    longer query are among the buttons for the shorter one. *)
Theorem typing_more_narrows (q q' : str) (index : list str) :
  q <> [] -> q `sublist_of` q' ->
  (forall c, subseqmatch q' c = true -> subseqmatch q c = true) /\
  List.filter (subseqmatch q') index `sublist_of` List.filter (subseqmatch q) index /\
  ((length (List.filter (subseqmatch q) index) <= 20)%nat ->
   match_list q' index `sublist_of` match_list q index).
Proof.
  intros Hne Hsub.
  assert (forall c, subseqmatch q' c = true -> subseqmatch q c = true) as Himpl.
  { intros c [_ Hc]%subseqmatch_sublist. apply subseqmatch_sublist.
    split; [done|]. by etrans. }
  split; [done|]. split; [by apply bool_filter_sublist_impl|].
  intros Hlen. unfold match_list.
  rewrite (take_ge (List.filter (subseqmatch q) index)) by done.
  etrans; [apply sublist_take|]. by apply bool_filter_sublist_impl.
Qed.

Lemma typing_more_narrows_witness :
  match_list (lit "lsb") scenario_index `sublist_of` match_list (lit "ls") scenario_index.
Proof.
  apply (typing_more_narrows (lit "ls") (lit "lsb") scenario_index).
  - discriminate.
  - change (lit "lsb") with (lit "ls" ++ lit "b").
    apply sublist_inserts_r. reflexivity.
  - vm_compute. lia.
Defined.

(** ** The order of the index and of the suggestions *)

Lemma StronglySorted_lookup {A} (R : relation A) (l : list A) i j a b :
  StronglySorted R l -> l !! i = Some a -> l !! j = Some b -> (i < j)%nat -> R a b.
Proof.
  intros HS. revert i j. induction HS as [|x l HS IH HF]; intros i j Hi Hj Hij.
  - done.
  - destruct j as [|j]; [lia|]. simpl in Hj. destruct i as [|i].
    + injection Hi as <-. rewrite Forall_forall in HF. apply HF.
      by eapply list_elem_of_lookup_2.
    + simpl in Hi. apply (IH i j); [done | done | lia].
Qed.

Lemma get_path_commands_ordered set_iter env index :
  get_path_commands set_iter env = inr index -> StronglySorted key_le index.
Proof.
  unfold get_path_commands. destruct (scan_path env _ ∅) as [e|s]; [done|].
  intros [= <-]. apply StronglySorted_merge_sort; apply _.
Qed.

Lemma get_path_commands_NoDup set_iter env index :
  enumerates set_iter ->
  get_path_commands set_iter env = inr index -> NoDup index.
Proof.
  intros Hit. unfold get_path_commands.
  destruct (scan_path env _ ∅) as [e|s]; [done|].
  intros [= <-]. rewrite merge_sort_Permutation, (Hit s). apply NoDup_elements.
Qed.

Lemma key_le_length a b : key_le a b -> (length a <= length b)%nat.
Proof. intros [?|[? _]]; lia. Qed.

(** X3.  "Sorted with shorter names first": in an index
    [get_path_commands] returns, whatever the order in which the set of
    names was iterated, a name is never longer than a name that comes after
    it, and of two names of the same length the earlier is the smaller in
    the order of strings. *)
Theorem shorter_names_first
    (set_iter : gset str -> list str) (env : Env) (index : list str)
    (i j : nat) (a b : str) :
  get_path_commands set_iter env = inr index ->
  index !! i = Some a -> index !! j = Some b -> (i < j)%nat ->
  (length a <= length b)%nat /\ (length a = length b -> Py.str_le a b).
Proof.
  intros Hidx Hi Hj Hij.
  pose proof (StronglySorted_lookup key_le index i j a b
                (get_path_commands_ordered _ _ _ Hidx) Hi Hj Hij) as Hle.
  split; [by apply key_le_length|].
  intros Hlen. destruct Hle as [?|[_ ?]]; [lia | done].
Qed.

Lemma shorter_names_first_witness :
  (length (lit "ls") <= length (lit "cat"))%nat /\
  (length (lit "ls") = length (lit "cat") -> Py.str_le (lit "ls") (lit "cat")).
Proof.
  apply (shorter_names_first elements (scenario_env false) scenario_index 0 1).
  - vm_compute. reflexivity.
  - reflexivity.
  - reflexivity.
  - lia.
Defined.

(** X4.  The suggestion box inherits the order of the index: with the
    index of [get_path_commands] as [commands], after [refresh_suggestions]
    no command has two buttons, and a button's command is never longer than
    that of a later button. *)
Theorem suggestions_keep_index_order
    (set_iter : gset str -> list str) (env : Env) (text : str) (st : Launcher)
    (i j : nat) (a b : str) :
  enumerates set_iter ->
  get_path_commands set_iter env = inr (commands st) ->
  let box := suggestion_box (snd (refresh_suggestions text st)) in
  NoDup box /\ StronglySorted key_le box /\
  (box !! i = Some a -> box !! j = Some b -> (i < j)%nat ->
   (length a <= length b)%nat /\ a <> b).
Proof.
  intros Hit Hidx. simpl.
  destruct (refresh_suggestions_run text st)
    as (st' & -> & _ & _ & _ & _ & _ & Hbox & _). simpl. rewrite Hbox.
  assert (match_list text (commands st) `sublist_of` commands st) as Hsub.
  { unfold match_list. etrans; [apply sublist_take | apply sublist_bool_filter]. }
  assert (NoDup (match_list text (commands st))) as Hnd.
  { eapply sublist_NoDup; [|exact Hsub]. by eapply get_path_commands_NoDup. }
  assert (StronglySorted key_le (match_list text (commands st))) as Hss.
  { eapply StronglySorted_sublist; [exact Hsub|]. by eapply get_path_commands_ordered. }
  conjs; [done | done |]. intros Hi Hj Hij. split.
  - apply key_le_length. by eapply StronglySorted_lookup.
  - intros ->. rewrite NoDup_alt in Hnd. specialize (Hnd i j b Hi Hj). lia.
Qed.

Lemma suggestions_keep_index_order_witness :
  NoDup (suggestion_box (snd (refresh_suggestions (lit "l") (build_ui scenario_index)))).
Proof.
  apply (suggestions_keep_index_order elements (scenario_env false) (lit "l")
           (build_ui scenario_index) 0 1 (lit "ls") (lit "lsblk")).
  - intros s. reflexivity.
  - vm_compute. reflexivity.
Defined.

(** X5.  A command typed in full comes first: when the text is a name of
    the index of [get_path_commands], its button is the first of the
    suggestion box, whatever else matches. *)
Theorem exact_name_is_first_suggestion
    (set_iter : gset str -> list str) (env : Env) (q : str) (st : Launcher) :
  get_path_commands set_iter env = inr (commands st) ->
  q <> [] -> q ∈ commands st ->
  head (suggestion_box (snd (refresh_suggestions q st))) = Some q.
Proof.
  intros Hidx Hne Hin.
  destruct (refresh_suggestions_run q st)
    as (st' & -> & _ & _ & _ & _ & _ & Hbox & _). simpl. rewrite Hbox.
  apply get_path_commands_ordered in Hidx.
  apply list_elem_of_split in Hin as (l1 & l2 & Hsplit). rewrite Hsplit in *.
  assert (forall x, x ∈ l1 -> subseqmatch q x = true -> x = q) as Hbefore.
  { intros x Hx Hm.
    pose proof (StronglySorted_app_1_elem_of key_le l1 (q :: l2) x q Hidx Hx
                  ltac:(left)) as Hle.
    apply subseqmatch_longer in Hm as [Hlen Heq].
    apply key_le_length in Hle. symmetry. apply Heq. lia. }
  clear Hidx Hsplit Hbox. unfold match_list.
  induction l1 as [|x l1 IH]; simpl.
  - rewrite (subseqmatch_self q Hne). done.
  - destruct (subseqmatch q x) eqn:Hm.
    + simpl. f_equal. apply Hbefore; [left | done].
    + apply IH. intros y Hy. apply Hbefore. by right.
Qed.

Lemma exact_name_is_first_suggestion_witness :
  head (suggestion_box (snd (refresh_suggestions (lit "cat")
                               (build_ui scenario_index)))) = Some (lit "cat").
Proof.
  apply (exact_name_is_first_suggestion elements (scenario_env false) (lit "cat")
           (build_ui scenario_index)).
  - vm_compute. reflexivity.
  - discriminate.
  - apply (bool_decide_unpack _). vm_compute. exact I.
Defined.

(** ** The search path *)

Lemma split_not_nil sep s : Py.split sep s <> [].
Proof.
  destruct s as [|c s]; simpl; [done|].
  destruct (N.eqb c sep); [done|]. by destruct (Py.split sep s).
Qed.

Lemma join_cons sep s rest :
  rest <> [] -> join sep (s :: rest) = s ++ sep :: join sep rest.
Proof. by destruct rest. Qed.

Lemma join_split sep s : join sep (Py.split sep s) = s.
Proof.
  induction s as [|c s IH]; simpl; [done|].
  destruct (N.eqb_spec c sep) as [->|Hne].
  - rewrite join_cons by apply split_not_nil. by rewrite IH.
  - pose proof (split_not_nil sep s) as Hnil.
    destruct (Py.split sep s) as [|h t]; [done|].
    destruct t as [|h' t]; simpl in *; by rewrite <- IH.
Qed.

Lemma split_no_sep sep s : sep ∉ s -> Py.split sep s = [s].
Proof.
  induction s as [|c s IH]; intros Hs; simpl; [done|].
  apply not_elem_of_cons in Hs as [Hc Hs].
  destruct (N.eqb_spec c sep) as [->|_]; [done|]. by rewrite IH.
Qed.

Lemma split_app_sep sep a b :
  sep ∉ a -> Py.split sep (a ++ sep :: b) = a :: Py.split sep b.
Proof.
  induction a as [|c a IH]; intros Ha; simpl.
  - by rewrite N.eqb_refl.
  - apply not_elem_of_cons in Ha as [Hc Ha].
    destruct (N.eqb_spec c sep) as [->|_]; [done|]. by rewrite IH.
Qed.

Lemma split_join sep parts :
  parts <> [] -> Forall (fun p => sep ∉ p) parts ->
  Py.split sep (join sep parts) = parts.
Proof.
  intros Hne Hall. induction Hall as [|p parts Hp Hall IH]; [done|].
  destruct parts as [|p' parts].
  - simpl. by apply split_no_sep.
  - rewrite join_cons by done. rewrite split_app_sep by done.
    f_equal. by apply IH.
Qed.

Lemma split_parts_no_sep sep s : Forall (fun p => sep ∉ p) (Py.split sep s).
Proof.
  induction s as [|c s IH]; simpl.
  - constructor; [apply not_elem_of_nil | constructor].
  - destruct (N.eqb_spec c sep) as [->|Hne].
    + constructor; [apply not_elem_of_nil | done].
    + destruct (Py.split sep s) as [|h t]; simpl.
      * constructor; [|constructor]. apply not_elem_of_cons. split; [done|].
        apply not_elem_of_nil.
      * apply Forall_cons in IH as [Hh Ht]. constructor; [|done].
        apply not_elem_of_cons. by split.
Qed.

(** X6.  The search path is the list of directories [PATH] joins with
    colons: a [PATH] made of directory names without a colon, joined by
    colons, is split back into these names, an empty name included; and
    joining the parts of any [PATH] gives it back, none of the parts
    holding a colon. *)
Theorem search_path_of_joined_directories (env : Env) (dirs : list str) :
  (dirs <> [] -> Forall (fun d => pathsep ∉ d) dirs ->
   getenv_PATH env = Some (join pathsep dirs) -> search_path env = dirs) /\
  join pathsep (search_path env) = default [] (getenv_PATH env) /\
  Forall (fun d => pathsep ∉ d) (search_path env) /\
  search_path env <> [].
Proof.
  unfold search_path. conjs.
  - intros Hne Hall ->. simpl. by apply split_join.
  - apply join_split.
  - apply split_parts_no_sep.
  - apply split_not_nil.
Qed.

Lemma search_path_of_joined_directories_witness :
  search_path (scenario_env false) = [lit "/usr/bin"; lit "/nowhere"; lit "/bin"].
Proof.
  apply (search_path_of_joined_directories (scenario_env false)
           [lit "/usr/bin"; lit "/nowhere"; lit "/bin"]).
  - discriminate.
  - apply (bool_decide_unpack _). vm_compute. exact I.
  - reflexivity.
Defined.

Lemma scan_path_same_dirs env ps1 ps2 s :
  (forall p, p ∈ List.filter (is_directory env) (Path <$> ps1) <->
             p ∈ List.filter (is_directory env) (Path <$> ps2)) ->
  Forall (fun p => exists b, is_dir env p = inr b) (Path <$> ps2) ->
  scan_path env ps1 ∅ = inr s -> scan_path env ps2 ∅ = inr s.
Proof.
  intros Hdirs Hanswers Hscan1.
  pose proof (scan_path_inr_inv _ _ _ _ Hscan1) as Hall1.
  destruct (scan_path_inr env ps2 ∅) as [s2 Hscan2].
  { apply Forall_forall. intros p Hp. rewrite Forall_forall in Hanswers.
    destruct (Hanswers p Hp) as [[|] Hb]; [|by left].
    rewrite Forall_forall in Hall1. apply Hall1.
    assert (p ∈ List.filter (is_directory env) (Path <$> ps1)) as Hin.
    { apply Hdirs. apply list_elem_of_In, List.filter_In.
      split; [by apply list_elem_of_In|]. unfold is_directory. by rewrite Hb. }
    apply list_elem_of_In, List.filter_In in Hin as [Hin _].
    by apply list_elem_of_In. }
  rewrite Hscan2. f_equal. apply set_eq. intros x.
  rewrite (scan_path_elem _ _ _ _ Hscan1 x), (scan_path_elem _ _ _ _ Hscan2 x).
  split; (intros [Hx|(p & fs & f & Hp & Hrest)]; [by left|]);
    right; exists p, fs, f; (split; [by apply Hdirs | done]).
Qed.

(** X7.  The index depends on the search path only through the set of its
    existing directories: on the same file system, when the build returns
    an index for one value of [PATH], it returns the same index for every
    other value that names the same existing directories (in another
    order, more than once, among other entries) as long as [is_dir()]
    answers for each of its entries; an entry for which [is_dir()] raises
    is no such entry: the build raises there. *)
Theorem index_depends_on_directory_set
    (set_iter : gset str -> list str) (env1 env2 : Env) (index : list str) :
  (forall p, is_dir env1 p = is_dir env2 p) ->
  (forall p, iterdir env1 p = iterdir env2 p) ->
  (forall p, p ∈ path_dirs env1 <-> p ∈ path_dirs env2) ->
  Forall (fun p => exists b, is_dir env2 p = inr b) (Path <$> search_path env2) ->
  get_path_commands set_iter env1 = inr index ->
  get_path_commands set_iter env2 = inr index.
Proof.
  intros Hdir Hls Hdirs Hanswers. unfold get_path_commands, path_dirs in *.
  destruct (scan_path env1 (search_path env1) ∅) as [e|s] eqn:Hscan1; [done|].
  intros [= <-].
  rewrite (scan_path_same env1 env2 (search_path env2) ∅ s); [done| |].
  - intros p. split; [done|]. rewrite <- (Hls p).
    destruct (iterdir env1 p); simpl; done.
  - apply (scan_path_same_dirs env1 (search_path env1) (search_path env2) s);
      [| |done].
    + intros p. rewrite (Hdirs p).
      rewrite (List.filter_ext (is_directory env1) (is_directory env2)); [done|].
      intros q. unfold is_directory. by rewrite (Hdir q).
    + eapply Forall_impl; [exact Hanswers|]. intros q [b Hb].
      exists b. by rewrite (Hdir q).
Qed.

Lemma index_depends_on_directory_set_witness :
  get_path_commands elements
    {| getenv_PATH := Some (lit "/bin:/etc/passwd:/usr/bin:/bin");
       is_dir := is_dir (scenario_env false);
       iterdir := iterdir (scenario_env false) |}
  = inr scenario_index.
Proof.
  apply (index_depends_on_directory_set elements (scenario_env false)).
  - reflexivity.
  - reflexivity.
  - intros p.
    assert (path_dirs (scenario_env false) = [lit "/usr/bin"; lit "/bin"]) as ->
      by (vm_compute; reflexivity).
    match goal with |- _ <-> p ∈ path_dirs ?e =>
      assert (path_dirs e = [lit "/bin"; lit "/usr/bin"; lit "/bin"]) as ->
        by (vm_compute; reflexivity)
    end.
    rewrite !elem_of_cons. tauto.
  - apply Forall_forall. intros p _. by eexists.
  - vm_compute. reflexivity.
Defined.

(** X8.  With [PATH] unset or empty the search path is the one empty name,
    which [Path] reads as the current directory, and the build is the turn
    of the loop for [.]: it raises what [is_dir()] raises; it returns the
    empty index when [.] is no directory; it raises what the enumeration
    of [.] raises, or what [is_file()] raises for the first entry for
    which it does not answer; and otherwise it returns the index of the
    executable regular files of [.]. *)
Theorem empty_PATH_scans_current_directory
    (set_iter : gset str -> list str) (env : Env) :
  enumerates set_iter ->
  getenv_PATH env = None \/ getenv_PATH env = Some [] ->
  search_path env = [[]] /\
  match is_dir env (lit ".") with
  | inl e => get_path_commands set_iter env = inl e
  | inr false => get_path_commands set_iter env = inr []
  | inr true =>
      match iterdir env (lit ".") with
      | inl e => get_path_commands set_iter env = inl e
      | inr fs =>
          (forall fs1 f fs2 e,
             fs = fs1 ++ f :: fs2 -> Forall entry_ok fs1 -> is_file f = inl e ->
             get_path_commands set_iter env = inl e) /\
          (Forall entry_ok fs ->
           exists index,
             get_path_commands set_iter env = inr index /\
             forall x, x ∈ index <->
                       exists f, f ∈ fs /\ is_file f = inr true /\
                                 access_X_OK f = true /\ name f = x)
      end
  end.
Proof.
  intros Hit Hpath.
  assert (search_path env = [[]]) as Hsp.
  { unfold search_path. by destruct Hpath as [-> | ->]. }
  split; [done|]. unfold get_path_commands. rewrite Hsp. simpl.
  destruct (is_dir env (lit ".")) as [e|[|]]; [done| |].
  - destruct (iterdir env (lit ".")) as [e|fs]; [done|]. split.
    + intros fs1 f fs2 e -> Hok Hf.
      assert (add_entries ∅ (fs1 ++ f :: fs2) = inl e) as ->; [|done].
      apply add_entries_inl. by exists fs1, f, fs2.
    + intros Hok. destruct (add_entries_inr ∅ fs Hok) as [s Hadd]. rewrite Hadd.
      eexists. split; [reflexivity|]. intros x.
      rewrite merge_sort_Permutation, (Hit _), elem_of_elements.
      rewrite (add_entries_elem _ _ _ x Hadd).
      split; [intros [Hx|Hx]; [by apply not_elem_of_empty in Hx | done] | by right].
  - f_equal. assert (set_iter ∅ = []) as ->; [|done].
    apply Permutation_nil_r. by rewrite (Hit ∅), elements_empty.
Qed.

Lemma empty_PATH_scans_current_directory_witness :
  get_path_commands elements
    {| getenv_PATH := None;
       is_dir := fun _ => inl (OSError EACCES);
       iterdir := fun _ => inr [] |}
  = inl (OSError EACCES).
Proof.
  apply (empty_PATH_scans_current_directory elements
           {| getenv_PATH := None;
              is_dir := fun _ => inl (OSError EACCES);
              iterdir := fun _ => inr [] |}).
  - intros s. reflexivity.
  - left. reflexivity.
Defined.

(** ** Rebuilding the suggestion box *)

Lemma refresh_suggestions_closed text st :
  refresh_suggestions text st = (inr (), refreshed text st).
Proof.
  unfold refresh_suggestions, refreshed, match_list.
  cbv [mbind M_bind gets]. rewrite remove_children_run. simpl.
  rewrite drop_all.
  destruct (List.filter (subseqmatch text) (commands st)) as [|m ms] eqn:Hm.
  - by run_M.
  - run_M. rewrite append_buttons_run. simpl. done.
Qed.

(** X9.  [refresh_suggestions] starts from scratch: what it leaves does not
    depend on the buttons, the visibility or the expansion it finds, so two
    launchers that differ only in these are the same after it, and running
    it a second time for the same text changes nothing. *)
Theorem refresh_suggestions_from_scratch (text : str) (st1 st2 : Launcher) :
  commands st1 = commands st2 -> entry_text st1 = entry_text st2 ->
  focus st1 = focus st2 -> spawned st1 = spawned st2 ->
  quit_requested st1 = quit_requested st2 ->
  refresh_suggestions text st1 = refresh_suggestions text st2 /\
  refresh_suggestions text (snd (refresh_suggestions text st1))
  = refresh_suggestions text st1.
Proof.
  intros Hc Ht Hf Hs Hq. rewrite !refresh_suggestions_closed. simpl.
  unfold refreshed. simpl. rewrite Hc, Ht, Hf, Hs, Hq. done.
Qed.

Lemma refresh_suggestions_from_scratch_witness :
  refresh_suggestions (lit "ls") scenario_lsblk_focused
  = refresh_suggestions (lit "ls")
      (with_entry_text (lit "ls") (with_focus (OnButton 1) (build_ui scenario_index))).
Proof.
  apply (refresh_suggestions_from_scratch (lit "ls") scenario_lsblk_focused
           (with_entry_text (lit "ls")
              (with_focus (OnButton 1) (build_ui scenario_index))));
    reflexivity.
Defined.

(** ** Keys that edit the entry from the suggestion box *)

Lemma consistent_box st :
  consistent st ->
  suggestion_box st = match_list (entry_text st) (commands st) /\
  (scroller_visible st = true <-> suggestion_box st <> []).
Proof. intros (? & ? & _). done. Qed.

(** When the text changes, the toolkit emits "changed" and the box is
    rebuilt, whatever it held. *)
Lemma set_text_rebuilds changed_at text st :
  emits_changed changed_at ->
  exists st',
    set_text changed_at text st = (inr (), st') /\
    entry_text st' = text /\ commands st' = commands st /\
    focus st' = focus st /\ spawned st' = spawned st /\
    quit_requested st' = quit_requested st /\
    (entry_text st <> text \/ consistent st -> consistent st').
Proof.
  intros Hchanged.
  destruct (changed_loop_run (changed_at (entry_text st) text) st)
    as (st' & Hloop & Hc & Hf & Hs & Hq & Hlast).
  change (set_text changed_at text st)
    with (match for_each (changed_at (entry_text st) text)
                  (fun t => modify (with_entry_text t) ;; on_entry_changed) st with
          | (inr _, st1) => modify (with_entry_text text) st1
          | (inl e, st1) => (inl e, st1)
          end).
  rewrite Hloop. cbv [modify]. eexists. split; [reflexivity|]. simpl.
  conjs; try done.
  destruct (Hchanged (entry_text st) text) as [Hne Hlast'].
  destruct (last (changed_at (entry_text st) text)) as [t|] eqn:Hl.
  - intros _. destruct Hlast as [Ht Hst']. rewrite (Hlast' t eq_refl) in Ht.
    rewrite <- Ht. by apply consistent_with_entry_text.
  - subst st'. apply last_None in Hl.
    intros [Hdiff|Hst]; [by destruct (Hne Hdiff)|].
    destruct (decide (entry_text st = text)) as [<-|Hdiff]; [|by destruct (Hne Hdiff)].
    by apply consistent_with_entry_text.
Qed.

Lemma drop_last_snoc (s : str) c : Py.drop_last (s ++ [c]) = s.
Proof.
  unfold Py.drop_last. rewrite length_app. simpl.
  replace (length s + 1 - 1)%nat with (length s) by lia.
  apply take_app_length.
Qed.

Lemma drop_last_shorter (s : str) : s <> [] -> Py.drop_last s <> s.
Proof.
  intros Hne Heq. apply (f_equal length) in Heq.
  unfold Py.drop_last in Heq. rewrite length_take in Heq.
  destruct s; [done|]. simpl in Heq. lia.
Qed.

Lemma not_passed_to_gtk keyval :
  keyval ∉ passed_to_gtk -> existsb (N.eqb keyval) passed_to_gtk = false.
Proof.
  intros Hkey. apply not_true_is_false. intros Hx. apply Hkey.
  apply List.existsb_exists in Hx as (k & Hin & Hk).
  apply N.eqb_eq in Hk as ->. by apply list_elem_of_In.
Qed.

Section BrowsingKeys.

Variable changed_at : str -> str -> list str.
Variable keyval_to_unicode : N -> N.
Hypothesis Hchanged : emits_changed changed_at.

(** The scroller's handler on a key it takes, whose code point [chr]
    accepts: the character (or the backspace) reaches the entry. *)
Lemma on_scroller_key_pressed_edits keyval state st :
  keyval ∉ passed_to_gtk ->
  keyval_to_unicode keyval <> 0%N ->
  (keyval_to_unicode keyval <= 0x10FFFF)%N ->
  exists st',
    on_scroller_key_pressed changed_at keyval_to_unicode keyval state st
      = (inr true, st') /\
    entry_text st' = (if decide ([keyval_to_unicode keyval] = backspace)
                      then Py.drop_last (entry_text st)
                      else entry_text st ++ [keyval_to_unicode keyval]) /\
    commands st' = commands st /\ focus st' = OnEntry /\
    spawned st' = spawned st /\ quit_requested st' = quit_requested st /\
    (entry_text st' <> entry_text st \/ consistent st -> consistent st').
Proof.
  intros Hkey Hcp Hrange.
  unfold on_scroller_key_pressed. rewrite (not_passed_to_gtk _ Hkey).
  apply N.eqb_neq in Hcp. rewrite Hcp.
  unfold Py.chr. apply N.leb_le in Hrange. rewrite Hrange.
  cbv [lift mbind M_bind]. unfold append_char. cbv [mbind M_bind gets].
  destruct (set_text_rebuilds changed_at
              (if decide ([keyval_to_unicode keyval] = backspace)
               then Py.drop_last (entry_text st)
               else entry_text st ++ [keyval_to_unicode keyval]) st Hchanged)
    as (st' & -> & Ht & Hc & Hf & Hs & Hq & Hcons).
  run_M. simpl. eexists. split; [reflexivity|]. simpl. conjs; try done.
  intros [Hdiff|Hst]; apply Hcons; [left | by right].
  intros Heq. apply Hdiff. by rewrite Ht.
Qed.

End BrowsingKeys.

(** X10.  A key with a character, pressed while a suggestion has the focus:
    for a key that is neither left to GTK nor the space key, and whose code
    point is a character other than the backspace, the press is claimed, the
    character is appended to the text of the entry, the focus goes to the
    entry, and the suggestion box is rebuilt for the new text; no process
    is started and no quit requested. *)
Theorem printable_key_goes_to_entry
    (changed_at : str -> str -> list str) (keyval_to_unicode : N -> N)
    (st : Launcher) (keyval state : N) (i : nat) (label : str) :
  emits_changed changed_at ->
  focus st = OnButton i -> suggestion_box st !! i = Some label ->
  keyval ∉ passed_to_gtk -> keyval <> Gdk.KEY_space ->
  keyval_to_unicode keyval <> 0%N -> keyval_to_unicode keyval <> 8%N ->
  (keyval_to_unicode keyval <= 0x10FFFF)%N ->
  exists st',
    key_press changed_at keyval_to_unicode keyval state st = (true, st') /\
    entry_text st' = entry_text st ++ [keyval_to_unicode keyval] /\
    focus st' = OnEntry /\
    suggestion_box st' = match_list (entry_text st') (commands st) /\
    (scroller_visible st' = true <-> suggestion_box st' <> []) /\
    spawned st' = spawned st /\ quit_requested st' = quit_requested st.
Proof.
  intros Hchanged Hfocus Hbutton Hkey Hspace Hcp Hbs Hrange.
  destruct (on_scroller_key_pressed_edits changed_at keyval_to_unicode Hchanged
              keyval state st Hkey Hcp Hrange)
    as (st' & Hrun & Ht & Hc & Hf & Hs & Hq & Hcons).
  destruct (decide ([keyval_to_unicode keyval] = backspace)) as [[= Heq]|_]; [done|].
  exists st'. rewrite (key_press_on_button _ _ _ _ _ Hbutton Hfocus).
  assert (keyval <> Gdk.KEY_Return) as Hret.
  { intros ->. apply Hkey. unfold passed_to_gtk. set_solver. }
  apply N.eqb_neq in Hspace, Hret.
  unfold bubble, on_btn_key_pressed. rewrite Hspace, Hret. simpl. rewrite Hrun.
  split; [done|]. split; [done|]. split; [done|].
  destruct (consistent_box st') as [Hbox Hvis].
  { apply Hcons. left. rewrite Ht. intros Heq.
    apply (f_equal length) in Heq. rewrite length_app in Heq. simpl in Heq. lia. }
  rewrite <- Hc. by conjs.
Qed.

Lemma printable_key_goes_to_entry_witness :
  exists st',
    key_press Gtk.delete_then_insert Gdk.keyval_to_unicode_direct 120 0
              scenario_lsblk_focused = (true, st') /\
    entry_text st' = lit "lsx" /\ focus st' = OnEntry.
Proof.
  destruct (printable_key_goes_to_entry
              Gtk.delete_then_insert Gdk.keyval_to_unicode_direct
              scenario_lsblk_focused 120%N 0%N 1 (lit "lsblk"))
    as (st' & Hrun & Ht & Hf & _).
  - exact delete_then_insert_emits.
  - reflexivity.
  - reflexivity.
  - apply (bool_decide_unpack _). vm_compute. exact I.
  - vm_compute. discriminate.
  - vm_compute. discriminate.
  - vm_compute. discriminate.
  - vm_compute. discriminate.
  - exists st'. by conjs.
Defined.

(** X11.  The backspace key pressed while a suggestion has the focus (a key
    that is not left to GTK and whose code point is 8): the press is
    claimed, the last character of the text of the entry is removed (an
    empty text stays empty), the focus goes to the entry and, when a
    character was removed, the suggestion box is rebuilt for the shorter
    text.  In [append_char] a backspace undoes the character appended just
    before. *)
Theorem backspace_key_removes_last_character
    (changed_at : str -> str -> list str) (keyval_to_unicode : N -> N)
    (st : Launcher) (keyval state : N) (i : nat) (label : str) (c : char) :
  emits_changed changed_at ->
  focus st = OnButton i -> suggestion_box st !! i = Some label ->
  keyval ∉ passed_to_gtk -> keyval <> Gdk.KEY_space ->
  keyval_to_unicode keyval = 8%N ->
  (exists st',
     key_press changed_at keyval_to_unicode keyval state st = (true, st') /\
     entry_text st' = Py.drop_last (entry_text st) /\
     (forall t, entry_text st = t ++ [c] -> entry_text st' = t) /\
     (entry_text st = [] -> entry_text st' = []) /\
     focus st' = OnEntry /\
     (entry_text st <> [] ->
      suggestion_box st' = match_list (entry_text st') (commands st)) /\
     spawned st' = spawned st /\ quit_requested st' = quit_requested st) /\
  (c <> 8%N ->
   entry_text (snd (append_char changed_at backspace
                      (snd (append_char changed_at [c] st)))) = entry_text st).
Proof.
  intros Hchanged Hfocus Hbutton Hkey Hspace Hcp. split.
  - destruct (on_scroller_key_pressed_edits changed_at keyval_to_unicode Hchanged
                keyval state st Hkey)
      as (st' & Hrun & Ht & Hc & Hf & Hs & Hq & Hcons);
      [rewrite Hcp; done | rewrite Hcp; done |].
    rewrite Hcp in Ht. change [8%N] with backspace in Ht.
    destruct (decide (backspace = backspace)) as [_|]; [|done].
    exists st'. rewrite (key_press_on_button _ _ _ _ _ Hbutton Hfocus).
    assert (keyval <> Gdk.KEY_Return) as Hret.
    { intros ->. apply Hkey. unfold passed_to_gtk. set_solver. }
    apply N.eqb_neq in Hspace, Hret.
    unfold bubble, on_btn_key_pressed. rewrite Hspace, Hret. simpl. rewrite Hrun.
    conjs; try done.
    + intros t Heq. rewrite Ht, Heq. apply drop_last_snoc.
    + intros Heq. by rewrite Ht, Heq.
    + intros Hne. rewrite <- Hc. apply consistent_box, Hcons. left.
      rewrite Ht. by apply drop_last_shorter.
  - intros Hc.
    destruct (append_char_run changed_at [c] st) as (st1 & -> & Ht1 & _). simpl.
    destruct (append_char_run changed_at backspace st1) as (st2 & -> & Ht2 & _).
    simpl. rewrite Ht2, Ht1.
    destruct (decide (backspace = backspace)) as [_|]; [|done].
    destruct (decide ([c] = backspace)) as [[= ->]|_]; [done|].
    apply drop_last_snoc.
Qed.

Lemma backspace_key_removes_last_character_witness :
  exists st',
    key_press Gtk.delete_then_insert Gdk.keyval_to_unicode_direct 0xff08 0
              scenario_lsblk_focused = (true, st') /\
    entry_text st' = lit "l" /\ focus st' = OnEntry.
Proof.
  destruct (backspace_key_removes_last_character
              Gtk.delete_then_insert Gdk.keyval_to_unicode_direct
              scenario_lsblk_focused 0xff08%N 0%N 1 (lit "lsblk") 115%N)
    as [(st' & Hrun & _ & Ht & _ & Hf & _) _].
  - exact delete_then_insert_emits.
  - reflexivity.
  - reflexivity.
  - apply (bool_decide_unpack _). vm_compute. exact I.
  - vm_compute. discriminate.
  - reflexivity.
  - exists st'. split; [done|]. split; [|done]. by apply (Ht (lit "l")).
Defined.

(** X12.  A key that is not left to GTK and whose code point lies above
    [0x10FFFF]: [chr] raises [ValueError] in the scroller's handler before
    anything is written, so the state is as it was: no character appended,
    the focus not moved. *)
Theorem key_beyond_unicode_raises
    (changed_at : str -> str -> list str) (keyval_to_unicode : N -> N)
    (st : Launcher) (keyval state : N) :
  keyval ∉ passed_to_gtk ->
  (0x10FFFF < keyval_to_unicode keyval)%N ->
  on_scroller_key_pressed changed_at keyval_to_unicode keyval state st
  = (inl ValueError, st).
Proof.
  intros Hkey Hrange. unfold on_scroller_key_pressed.
  rewrite (not_passed_to_gtk _ Hkey).
  assert (keyval_to_unicode keyval <> 0%N) as Hcp by lia.
  apply N.eqb_neq in Hcp. rewrite Hcp. unfold Py.chr.
  apply N.leb_gt in Hrange. rewrite Hrange. done.
Qed.

Lemma key_beyond_unicode_raises_witness :
  on_scroller_key_pressed Gtk.delete_then_insert Gdk.keyval_to_unicode_direct
    0x01110000 0 scenario_lsblk_focused
  = (inl ValueError, scenario_lsblk_focused).
Proof.
  apply (key_beyond_unicode_raises Gtk.delete_then_insert Gdk.keyval_to_unicode_direct).
  - apply (bool_decide_unpack _). vm_compute. exact I.
  - vm_compute. reflexivity.
Defined.

(** X13.  The space key on a focused suggestion does not activate it: in
    any modifier state the button's handler claims the press, a blank is
    appended to the text of the entry, the focus goes to the entry and the
    box is rebuilt for the new text; no process is started and no quit
    requested. *)
Theorem space_key_goes_to_entry
    (changed_at : str -> str -> list str) (keyval_to_unicode : N -> N)
    (st : Launcher) (state : N) (i : nat) (label : str) :
  emits_changed changed_at ->
  focus st = OnButton i -> suggestion_box st !! i = Some label ->
  exists st',
    key_press changed_at keyval_to_unicode Gdk.KEY_space state st = (true, st') /\
    entry_text st' = entry_text st ++ lit " " /\
    focus st' = OnEntry /\
    suggestion_box st' = match_list (entry_text st') (commands st) /\
    spawned st' = spawned st /\ quit_requested st' = quit_requested st.
Proof.
  intros Hchanged Hfocus Hbutton.
  rewrite (key_press_on_button _ _ _ _ _ Hbutton Hfocus).
  unfold bubble, on_btn_key_pressed. simpl.
  unfold append_char. cbv [mbind M_bind gets]. simpl.
  destruct (set_text_rebuilds changed_at (entry_text st ++ lit " ") st Hchanged)
    as (st' & Hrun & Ht & Hc & Hf & Hs & Hq & Hcons).
  change (lit " ") with [32%N] in *. rewrite Hrun. run_M. simpl.
  eexists. split; [reflexivity|]. simpl. conjs; try done.
  rewrite <- Hc. apply consistent_box, Hcons. left.
  intros Heq. apply (f_equal length) in Heq. rewrite length_app in Heq.
  simpl in Heq. lia.
Qed.

Lemma space_key_goes_to_entry_witness :
  exists st',
    key_press Gtk.delete_then_insert Gdk.keyval_to_unicode_direct
              Gdk.KEY_space Gdk.CONTROL_MASK scenario_lsblk_focused = (true, st') /\
    entry_text st' = lit "ls " /\ focus st' = OnEntry.
Proof.
  destruct (space_key_goes_to_entry
              Gtk.delete_then_insert Gdk.keyval_to_unicode_direct
              scenario_lsblk_focused Gdk.CONTROL_MASK 1 (lit "lsblk"))
    as (st' & Hrun & Ht & Hf & _).
  - exact delete_then_insert_emits.
  - reflexivity.
  - reflexivity.
  - exists st'. by conjs.
Defined.

(** X14.  The keys the handlers leave alone.  With the focus on a
    suggestion, Tab in its three forms and the Shift and Control keys pass
    the three handlers unclaimed and unchanged; with the focus on the
    entry, every key but Escape does. *)
Theorem keys_left_to_the_toolkit
    (changed_at : str -> str -> list str) (keyval_to_unicode : N -> N)
    (st : Launcher) (keyval state : N) :
  (focus_exists st ->
   keyval ∈ [Gdk.KEY_Tab; Gdk.KEY_KP_Tab; Gdk.KEY_ISO_Left_Tab; Gdk.KEY_Shift_L;
             Gdk.KEY_Shift_R; Gdk.KEY_Control_L; Gdk.KEY_Control_R] ->
   key_press changed_at keyval_to_unicode keyval state st = (false, st)) /\
  (focus st = OnEntry -> keyval <> Gdk.KEY_Escape ->
   key_press changed_at keyval_to_unicode keyval state st = (false, st)).
Proof.
  split.
  - intros Hfocus Hkey. unfold key_press, key_controllers, focus_exists in *.
    repeat (apply elem_of_cons in Hkey as [->|Hkey];
            [destruct (focus st); [done|]; by destruct Hfocus as [l ->] |]).
    by apply elem_of_nil in Hkey.
  - intros Hfocus Hesc%N.eqb_neq. unfold key_press, key_controllers.
    rewrite Hfocus. simpl. unfold on_key_pressed. by rewrite Hesc.
Qed.

Lemma keys_left_to_the_toolkit_witness :
  key_press Gtk.delete_then_insert Gdk.keyval_to_unicode_direct Gdk.KEY_Tab 0
            scenario_lsblk_focused = (false, scenario_lsblk_focused)
  /\ key_press Gtk.delete_then_insert Gdk.keyval_to_unicode_direct 120 0
               (build_ui scenario_index) = (false, build_ui scenario_index).
Proof.
  split.
  - apply (proj1 (keys_left_to_the_toolkit
                    Gtk.delete_then_insert Gdk.keyval_to_unicode_direct
                    scenario_lsblk_focused Gdk.KEY_Tab 0%N)).
    + vm_compute. by eexists.
    + left.
  - apply (proj2 (keys_left_to_the_toolkit
                    Gtk.delete_then_insert Gdk.keyval_to_unicode_direct
                    (build_ui scenario_index) 120%N 0%N)).
    + reflexivity.
    + vm_compute. discriminate.
Defined.

(** ** Picking a suggestion and running it from the entry *)

Lemma safe_not_space c : shlex.safe c = true -> Py.isspace c = false.
Proof.
  unfold shlex.safe, Py.isspace.
  change (lit "@%+=:,./-") with [64; 37; 43; 61; 58; 44; 46; 47; 45]%N. simpl.
  rewrite !orb_true_iff, !andb_true_iff, !N.leb_le, !N.eqb_eq.
  intros Hs. apply not_true_is_false. intros Hsp.
  rewrite !orb_true_iff, !andb_true_iff, !N.leb_le, !N.eqb_eq in Hsp. lia.
Qed.

Lemma lstrip_unchanged (s : str) :
  (forall c, head s = Some c -> Py.isspace c = false) -> Py.lstrip s = s.
Proof.
  destruct s as [|c s]; [done|]. simpl. intros Hc. by rewrite (Hc c eq_refl).
Qed.

Lemma strip_unchanged (s : str) :
  (forall c, head s = Some c -> Py.isspace c = false) ->
  (forall c, last s = Some c -> Py.isspace c = false) ->
  Py.strip s = s.
Proof.
  intros Hhead Hlast. unfold Py.strip, Py.rstrip.
  rewrite (lstrip_unchanged s Hhead), lstrip_unchanged.
  - apply reverse_involutive.
  - intros c. rewrite head_reverse. apply Hlast.
Qed.

(** What [shlex.quote] returns is never empty and has no blank at either
    end: [strip] leaves it alone. *)
Lemma strip_quote (n : str) :
  shlex.quote n <> [] /\ Py.strip (shlex.quote n) = shlex.quote n.
Proof.
  unfold shlex.quote. destruct n as [|c n]; [by split|].
  destruct (forallb shlex.safe (c :: n)) eqn:Hsafe.
  - split; [done|]. rewrite List.forallb_forall in Hsafe.
    apply strip_unchanged; intros x Hx; apply safe_not_space, Hsafe.
    + simpl in Hx. injection Hx as <-. by left.
    + apply list_elem_of_In. by apply last_Some_elem_of.
  - split; [done|]. apply strip_unchanged; intros x.
    + simpl. by intros [= <-].
    + rewrite app_assoc, last_snoc. by intros [= <-].
Qed.

(** X15.  Picking and then running is running: after Return with exactly
    Control held on a focused suggestion [n] (or the pointer press in that
    state) has copied the quoted name into the entry, activating the entry
    hands the shell the very line [exec_one(n)] would have handed it, and
    quits. *)
Theorem pick_then_activate_runs_command
    (changed_at : str -> str -> list str) (keyval_to_unicode : N -> N)
    (st : Launcher) (i : nat) (n : str) :
  suggestion_box st !! i = Some n -> focus st = OnButton i ->
  let picked := snd (key_press changed_at keyval_to_unicode Gdk.KEY_Return
                               Gdk.CONTROL_MASK st) in
  pointer_press changed_at i Gdk.CONTROL_MASK st = picked /\
  spawned picked = spawned st /\
  spawned (activate picked)
  = spawned (launched (shlex.quote n) st) /\
  quit_requested (activate picked) = true.
Proof.
  intros Hbutton Hfocus.
  destruct (exact_control_picks changed_at keyval_to_unicode st i n Hbutton Hfocus)
    as (st' & Hkey & Hptr & Ht & Hf & Hs & Hq).
  simpl. rewrite Hkey. simpl. split; [done|]. split; [done|].
  destruct (strip_quote n) as [Hne Hstrip].
  unfold activate, on_activate_entry. cbv [mbind M_bind gets].
  rewrite Ht, Hstrip. destruct (shlex.quote n) as [|c l]; [done|].
  run_M. simpl. by rewrite Hs.
Qed.

Lemma pick_then_activate_runs_command_witness :
  spawned (activate (snd (key_press Gtk.delete_then_insert
                            Gdk.keyval_to_unicode_direct Gdk.KEY_Return
                            Gdk.CONTROL_MASK scenario_lsblk_focused)))
  = [{| args := lit "lsblk"; shell := true |}].
Proof.
  apply (pick_then_activate_runs_command
           Gtk.delete_then_insert Gdk.keyval_to_unicode_direct
           scenario_lsblk_focused 1 (lit "lsblk"));
    reflexivity.
Defined.

(** ** What no sequence of events does *)

Lemma step_frame_refl st : step_frame st st.
Proof. split; [done | by left]. Qed.

Lemma step_frame_launched line st : step_frame st (launched line st).
Proof. split; [done|]. right. split; [done|]. by exists line. Qed.

Section Frame.

Variable changed_at : str -> str -> list str.
Variable keyval_to_unicode : N -> N.

Lemma set_text_frame text st : step_frame st (snd (set_text changed_at text st)).
Proof.
  destruct (set_text_run changed_at text st) as (st' & -> & _ & Hc & _ & Hs & _).
  split; [done | by left].
Qed.

Lemma append_char_frame char st :
  step_frame st (snd (append_char changed_at char st)).
Proof.
  destruct (append_char_run changed_at char st) as (st' & -> & _ & Hc & _ & Hs & _).
  split; [done | by left].
Qed.

Lemma on_key_pressed_ok keyval state : handler_ok (on_key_pressed keyval state).
Proof.
  intros st. unfold on_key_pressed. destruct (N.eqb keyval Gdk.KEY_Escape).
  - right. run_M. simpl. split; [done|]. split; [done | by left].
  - by left.
Qed.

Lemma on_scroller_key_pressed_ok keyval state :
  handler_ok (on_scroller_key_pressed changed_at keyval_to_unicode keyval state).
Proof.
  intros st. unfold on_scroller_key_pressed.
  destruct (existsb (N.eqb keyval) passed_to_gtk); [by left|].
  cbv [mbind M_bind].
  destruct (N.eqb (keyval_to_unicode keyval) 0).
  - right. cbv [mret M_ret].
    pose proof (append_char_frame [] st) as Hframe.
    destruct (append_char_run changed_at [] st) as (st' & Hrun & _).
    rewrite Hrun in *. run_M. simpl in *. by split.
  - unfold lift, Py.chr.
    destruct (keyval_to_unicode keyval <=? 1114111)%N; [|by left].
    right. pose proof (append_char_frame [keyval_to_unicode keyval] st) as Hframe.
    destruct (append_char_run changed_at [keyval_to_unicode keyval] st)
      as (st' & Hrun & _).
    rewrite Hrun in *. run_M. simpl in *. by split.
Qed.

Lemma on_btn_clicked_frame state cmd st :
  step_frame st (snd (on_btn_clicked changed_at state cmd st)).
Proof.
  unfold on_btn_clicked. destruct (N.eqb state Gdk.CONTROL_MASK).
  - unfold set_cmd. cbv [mbind M_bind].
    pose proof (set_text_frame (shlex.quote cmd) st) as Hframe.
    destruct (set_text_run changed_at (shlex.quote cmd) st) as (st' & Hrun & _).
    rewrite Hrun in *. run_M. simpl in *. exact Hframe.
  - run_M. simpl. apply (step_frame_launched (shlex.quote cmd) st).
Qed.

Lemma on_btn_key_pressed_ok label keyval state :
  handler_ok (on_btn_key_pressed changed_at label keyval state).
Proof.
  intros st. unfold on_btn_key_pressed.
  destruct (N.eqb keyval Gdk.KEY_space).
  - right. cbv [mbind M_bind].
    pose proof (append_char_frame (lit " ") st) as Hframe.
    destruct (append_char_run changed_at (lit " ") st) as (st' & Hrun & _).
    rewrite Hrun in *. run_M. simpl in *. by split.
  - destruct (N.eqb keyval Gdk.KEY_Return); [|by left]. right.
    destruct (N.eqb state Gdk.CONTROL_MASK).
    + unfold set_cmd. cbv [mbind M_bind].
      pose proof (set_text_frame (shlex.quote label) st) as Hframe.
      destruct (set_text_run changed_at (shlex.quote label) st) as (st' & Hrun & _).
      rewrite Hrun in *. run_M. simpl in *. by split.
    + run_M. simpl. split; [done|].
      apply (step_frame_launched (shlex.quote label) st).
Qed.

Lemma bubble_frame handlers st :
  Forall handler_ok handlers -> step_frame st (snd (bubble handlers st)).
Proof.
  intros Hall. induction Hall as [|h hs Hh _ IH]; simpl.
  - apply step_frame_refl.
  - destruct (Hh st) as [Hsame|[Hstop Hframe]].
    + rewrite Hsame. exact IH.
    + destruct (returned (h st)) as [stop st']. simpl in *. by rewrite Hstop.
Qed.

Lemma on_activate_entry_frame st : step_frame st (activate st).
Proof.
  unfold activate, on_activate_entry. cbv [mbind M_bind gets].
  destruct (Py.strip (entry_text st)) as [|c l] eqn:Hstrip.
  - apply step_frame_refl.
  - run_M. simpl. apply (step_frame_launched (c :: l) st).
Qed.

Lemma handle_frame st ev :
  step_frame st (handle changed_at keyval_to_unicode st ev).
Proof.
  unfold handle. destruct (quit_requested st); [apply step_frame_refl|].
  destruct ev as [keyval state|i state|text| |f].
  - unfold key_press, key_controllers. apply bubble_frame.
    destruct (focus st) as [|i].
    + apply Forall_cons_2; [apply on_key_pressed_ok | apply Forall_nil_2].
    + destruct (suggestion_box st !! i) as [label|]; [|apply Forall_nil_2].
      repeat first [apply Forall_nil_2 | apply Forall_cons_2].
      * apply on_btn_key_pressed_ok.
      * apply on_scroller_key_pressed_ok.
      * apply on_key_pressed_ok.
  - unfold pointer_press. destruct (suggestion_box st !! i) as [cmd|].
    + apply on_btn_clicked_frame.
    + apply step_frame_refl.
  - apply set_text_frame.
  - apply on_activate_entry_frame.
  - split; [done | by left].
Qed.

Lemma handle_one_shot st ev :
  one_shot st -> one_shot (handle changed_at keyval_to_unicode st ev).
Proof.
  intros Hone. pose proof (handle_frame st ev) as [_ Hframe].
  unfold handle in *. destruct (quit_requested st) eqn:Hq; [done|].
  destruct Hone as [Hnone|[Hquit _]]; [|congruence].
  rewrite Hnone in Hframe.
  destruct Hframe as [Hsame|[Hquit [line Hline]]]; [by left|].
  right. split; [done|]. by exists line.
Qed.

Lemma run_frame index evs :
  commands (run changed_at keyval_to_unicode index evs) = index /\
  one_shot (run changed_at keyval_to_unicode index evs).
Proof.
  unfold run. induction evs as [|ev evs [IHc IHo]] using rev_ind.
  - split; [done | by left].
  - rewrite foldl_snoc. split.
    + by rewrite (proj1 (handle_frame _ ev)).
    + by apply handle_one_shot.
Qed.

End Frame.

(** X16.  One launch at most.  Each event either starts no process or
    starts exactly one, through the shell, and requests quit with it; so
    over any sequence of events from the start the launcher has started no
    process, or a single one and has asked to quit. *)
Theorem at_most_one_process
    (changed_at : str -> str -> list str) (keyval_to_unicode : N -> N)
    (index : list str) (evs : list Event) (st : Launcher) (ev : Event) :
  (spawned (handle changed_at keyval_to_unicode st ev) = spawned st \/
   (quit_requested (handle changed_at keyval_to_unicode st ev) = true /\
    exists line,
      spawned (handle changed_at keyval_to_unicode st ev)
      = spawned st ++ [{| args := line; shell := true |}])) /\
  one_shot (run changed_at keyval_to_unicode index evs) /\
  (length (spawned (run changed_at keyval_to_unicode index evs)) <= 1)%nat.
Proof.
  split; [apply handle_frame|].
  pose proof (run_frame changed_at keyval_to_unicode index evs) as [_ Hone].
  split; [done|].
  destruct Hone as [->|[_ [line ->]]]; simpl; lia.
Qed.

(** X17.  The index is read-only and no button is stale: over any sequence
    of events from the start, [commands] is the index the launcher was
    built with, and every button of the suggestion box is a command of
    that index that [subseqmatch] accepts for the text the entry holds at
    that moment (which is then not empty). *)
Theorem buttons_are_current_matches
    (changed_at : str -> str -> list str) (keyval_to_unicode : N -> N)
    (index : list str) (evs : list Event) (i : nat) (n : str) :
  let st := run changed_at keyval_to_unicode index evs in
  commands st = index /\
  (emits_changed changed_at -> suggestion_box st !! i = Some n ->
   n ∈ index /\ subseqmatch (entry_text st) n = true /\ entry_text st <> []).
Proof.
  simpl.
  pose proof (run_frame changed_at keyval_to_unicode index evs) as [Hc _].
  split; [done|]. intros Hchanged Hbutton.
  pose proof (run_consistent changed_at keyval_to_unicode Hchanged index evs)
    as [Hbox _].
  rewrite Hc in Hbox. rewrite Hbox in Hbutton.
  apply list_elem_of_lookup_2 in Hbutton. unfold match_list in Hbutton.
  pose proof (elem_of_sublist _ _ _ Hbutton (sublist_take _ _)) as Hin.
  apply list_elem_of_In, List.filter_In in Hin as [Hin Hm].
  split; [by apply list_elem_of_In|]. split; [done|].
  intros Hempty. by rewrite Hempty in Hm.
Qed.

Lemma buttons_are_current_matches_witness :
  lit "lsblk" ∈ scenario_index /\
  subseqmatch
    (entry_text (run Gtk.delete_then_insert Gdk.keyval_to_unicode_direct
                     scenario_index [Edit (lit "lb")]))
    (lit "lsblk") = true.
Proof.
  destruct (buttons_are_current_matches
              Gtk.delete_then_insert Gdk.keyval_to_unicode_direct
              scenario_index [Edit (lit "lb")] 0 (lit "lsblk")) as [_ H].
  destruct H as (Hin & Hm & _).
  - exact delete_then_insert_emits.
  - reflexivity.
  - by split.
Defined.

(** X18.  Picking a suggestion: Return on a focused suggestion [n], or a
    pointer press on it, in the modifier state that is exactly
    [CONTROL_MASK], puts [shlex.quote(n)] into the entry, a text the shell
    reads as the one word [n], moves the focus to the entry and rebuilds
    the box for that text when it differs from the old one; no process is
    started and no quit requested. *)
Theorem exact_control_mask_picks
    (changed_at : str -> str -> list str) (keyval_to_unicode : N -> N)
    (st : Launcher) (i : nat) (n : str) :
  emits_changed changed_at ->
  suggestion_box st !! i = Some n -> focus st = OnButton i ->
  exists st',
    key_press changed_at keyval_to_unicode Gdk.KEY_Return Gdk.CONTROL_MASK st
      = (true, st') /\
    pointer_press changed_at i Gdk.CONTROL_MASK st = st' /\
    entry_text st' = shlex.quote n /\ sh.single_token (entry_text st') n /\
    focus st' = OnEntry /\
    (entry_text st <> shlex.quote n ->
     suggestion_box st' = match_list (shlex.quote n) (commands st)) /\
    spawned st' = spawned st /\ quit_requested st' = quit_requested st.
Proof.
  intros Hchanged Hbutton Hfocus.
  rewrite (key_press_on_button _ _ _ _ _ Hbutton Hfocus).
  unfold pointer_press. rewrite Hbutton.
  unfold bubble, on_btn_key_pressed, on_btn_clicked. simpl.
  unfold set_cmd. cbv [mbind M_bind].
  destruct (set_text_rebuilds changed_at (shlex.quote n) st Hchanged)
    as (st' & -> & Ht & Hc & _ & Hs & Hq & Hcons).
  run_M. simpl. eexists. split; [reflexivity|]. simpl. conjs; try done.
  - rewrite Ht. apply quote_single_token.
  - intros Hdiff. rewrite <- Hc, <- Ht. apply consistent_box, Hcons. by left.
Qed.

Lemma exact_control_mask_picks_witness :
  exists st',
    pointer_press Gtk.delete_then_insert 1 Gdk.CONTROL_MASK scenario_lsblk_focused
      = st' /\
    entry_text st' = lit "lsblk" /\ focus st' = OnEntry /\ spawned st' = [].
Proof.
  destruct (exact_control_mask_picks
              Gtk.delete_then_insert Gdk.keyval_to_unicode_direct
              scenario_lsblk_focused 1 (lit "lsblk"))
    as (st' & _ & Hptr & Ht & _ & Hf & _ & Hs & _).
  - exact delete_then_insert_emits.
  - reflexivity.
  - reflexivity.
  - exists st'. by conjs.
Defined.

(** ** The line of the entry *)

Lemma lstrip_split (s : str) :
  exists pre, s = pre ++ Py.lstrip s /\ forallb Py.isspace pre = true /\
              (forall c, head (Py.lstrip s) = Some c -> Py.isspace c = false).
Proof.
  induction s as [|c s (pre & Hs & Hpre & Hhead)]; simpl.
  - exists []. by conjs.
  - destruct (Py.isspace c) eqn:Hc.
    + exists (c :: pre). simpl. rewrite Hc, Hpre. conjs; [by f_equal | done | done].
    + exists []. conjs; [done | done |]. simpl. by intros ? [= <-].
Qed.

Lemma lstrip_nil (s : str) : Py.lstrip s = [] <-> forallb Py.isspace s = true.
Proof.
  induction s as [|c s IH]; simpl; [done|].
  destruct (Py.isspace c); simpl; [done|]. split; done.
Qed.

Lemma forallb_reverse {A} (f : A -> bool) (l : list A) :
  forallb f (reverse l) = forallb f l.
Proof.
  induction l as [|x l IH]; [done|].
  rewrite reverse_cons, List.forallb_app, IH. simpl.
  destruct (f x), (forallb f l); done.
Qed.

(** [strip] takes the blanks off both ends and nothing else. *)
Lemma strip_split (s : str) :
  exists pre post,
    s = pre ++ Py.strip s ++ post /\
    forallb Py.isspace pre = true /\ forallb Py.isspace post = true /\
    (forall c, head (Py.strip s) = Some c -> Py.isspace c = false) /\
    (forall c, last (Py.strip s) = Some c -> Py.isspace c = false).
Proof.
  destruct (lstrip_split s) as (pre & Hs & Hpre & Hhead).
  destruct (lstrip_split (reverse (Py.lstrip s))) as (tsop & Hr & Htsop & Hlast).
  exists pre, (reverse tsop). unfold Py.strip, Py.rstrip.
  assert (Py.lstrip s = reverse (Py.lstrip (reverse (Py.lstrip s))) ++ reverse tsop)
    as Hmid.
  { rewrite <- reverse_app, <- Hr. by rewrite reverse_involutive. }
  conjs.
  - by rewrite <- Hmid.
  - done.
  - by rewrite forallb_reverse.
  - intros c Hc. apply Hhead. rewrite Hmid.
    destruct (reverse (Py.lstrip (reverse (Py.lstrip s)))); [done|]. done.
  - intros c. rewrite last_reverse. apply Hlast.
Qed.

Lemma strip_nil (s : str) : Py.strip s = [] <-> forallb Py.isspace s = true.
Proof.
  destruct (strip_split s) as (pre & post & Hs & Hpre & Hpost & _).
  split.
  - intros Hnil. rewrite Hnil in Hs. rewrite Hs. simpl.
    by rewrite List.forallb_app, Hpre, Hpost.
  - intros Hall. unfold Py.strip, Py.rstrip.
    apply lstrip_nil in Hall. rewrite Hall. done.
Qed.

(** X19.  Activating the entry does nothing exactly when every character of
    its text is white space (the blank, the tab, the line breaks and the
    other characters of [str.isspace]), the empty text included; otherwise
    a process is started and quit is requested. *)
Theorem activate_is_noop_on_white_space (st : Launcher) :
  (activate st = st <-> forallb Py.isspace (entry_text st) = true) /\
  (forallb Py.isspace (entry_text st) = false ->
   length (spawned (activate st)) = S (length (spawned st)) /\
   quit_requested (activate st) = true).
Proof.
  rewrite <- strip_nil. unfold activate, on_activate_entry.
  cbv [mbind M_bind gets].
  destruct (Py.strip (entry_text st)) as [|c l] eqn:Hstrip; run_M; simpl.
  - split; [done|]. intros Hall. apply not_true_iff_false in Hall.
    destruct Hall. by apply strip_nil.
  - split.
    + split; [|done]. intros Heq. apply (f_equal (fun s => length (spawned s))) in Heq.
      simpl in Heq. rewrite length_app in Heq. simpl in Heq. lia.
    + intros _. rewrite length_app. simpl. split; [lia | done].
Qed.

Lemma activate_is_noop_on_white_space_witness :
  length (spawned (activate (with_entry_text (lit " ls") (build_ui scenario_index))))
  = 1%nat
  /\ activate (with_entry_text [32; 9; 160]%N (build_ui scenario_index))
     = with_entry_text [32; 9; 160]%N (build_ui scenario_index).
Proof.
  split.
  - apply (proj2 (activate_is_noop_on_white_space
                    (with_entry_text (lit " ls") (build_ui scenario_index)))).
    reflexivity.
  - apply (proj1 (activate_is_noop_on_white_space
                    (with_entry_text [32; 9; 160]%N (build_ui scenario_index)))).
    reflexivity.
Defined.

(** X20.  The line the entry hands to the shell is its text without the
    white space at its two ends, and nothing else is touched: the text is
    the line between two runs of white space, and the line neither starts
    nor ends with white space. *)
Theorem activate_line_is_text_between_white_space (st : Launcher) (line : Popen) :
  last (spawned (activate st)) = Some line ->
  spawned (activate st) <> spawned st ->
  shell line = true /\
  exists pre post,
    entry_text st = pre ++ args line ++ post /\
    forallb Py.isspace pre = true /\ forallb Py.isspace post = true /\
    (exists c, head (args line) = Some c /\ Py.isspace c = false) /\
    (exists c, last (args line) = Some c /\ Py.isspace c = false).
Proof.
  unfold activate, on_activate_entry. cbv [mbind M_bind gets].
  destruct (strip_split (entry_text st))
    as (pre & post & Hs & Hpre & Hpost & Hhead & Hlast).
  destruct (Py.strip (entry_text st)) as [|c l] eqn:Hstrip; run_M; simpl.
  - done.
  - rewrite last_snoc. intros [= <-] _. simpl. split; [done|].
    exists pre, post. conjs; try done.
    + exists c. split; [done|]. by apply Hhead.
    + destruct (last (c :: l)) as [d|] eqn:Hd; [|by apply last_None in Hd].
      exists d. split; [done|]. by apply Hlast.
Qed.

Lemma activate_line_is_text_between_white_space_witness :
  exists pre post,
    lit "  echo hi && true " = pre ++ lit "echo hi && true" ++ post /\
    forallb Py.isspace pre = true /\ forallb Py.isspace post = true.
Proof.
  destruct (activate_line_is_text_between_white_space
              (with_entry_text (lit "  echo hi && true ") (build_ui scenario_index))
              {| args := lit "echo hi && true"; shell := true |})
    as (_ & pre & post & Hs & Hpre & Hpost & _).
  - reflexivity.
  - vm_compute. discriminate.
  - exists pre, post. by conjs.
Defined.
